(** * AudioSub Master: the functional core, embedded in Rocq

    The development follows the repository file by file:
    - [types.ts]: [SubtitleSegment], [ProcessingState];
    - [utils/helpers.ts]: [formatTime], [generateSRT], [blobToBase64];
    - [services/gemini.ts]: [transcribeAudio];
    - [App.tsx]: the handlers of the [App] component and the UI they are
      wired to, as a labelled transition system.

    JavaScript strings are modelled by [string], a sequence of bytes holding
    the UTF-8 encoding of the text.  The string operations the program uses
    (concatenation, [split] on an ASCII separator, [startsWith] with an ASCII
    prefix, [padStart] of decimal numerals) act the same on both
    representations.  Integral JavaScript numbers are modelled by [Z]; a
    number that may be [NaN] is an [option Z].

    The functions are modelled on the types their source declares.  Where the
    source handles values of type [any] (the parsed answer of the service,
    the reason of a rejected remote call), the values are modelled as they
    are at run time. *)

From Stdlib Require Import ZArith List String Ascii Bool Lia.
From Stdlib Require Import DecimalString.
Import ListNotations.
Open Scope string_scope.
Open Scope Z_scope.

(** ** JavaScript runtime functions used by the sources *)

(** The newline of a template literal. *)
Definition LF : string := String (ascii_of_nat 10) EmptyString.

(** [Number.prototype.toString] on an integral number, or on [NaN]. *)
Definition toString (n : option Z) : string :=
  match n with
  | Some z => NilZero.string_of_int (Z.to_int z)
  | None => "NaN"
  end.

(** [fillLen] characters of [filler] repeated, cut to size; [fuel] bounds the
    number of copies and is at least [fillLen] at every call. *)
Fixpoint repeat_fill (fuel : nat) (filler : string) (fillLen : nat) : string :=
  match fuel with
  | O => EmptyString
  | S fuel' =>
      if Nat.leb fillLen (String.length filler)
      then substring 0 fillLen filler
      else filler ++ repeat_fill fuel' filler (fillLen - String.length filler)
  end.

(** [String.prototype.padStart (maxLength, fillString)]. *)
Definition padStart (maxLength : nat) (fillString : string) (s : string) : string :=
  if Nat.leb maxLength (String.length s) then s
  else match fillString with
       | EmptyString => s
       | _ => repeat_fill (maxLength - String.length s) fillString
                          (maxLength - String.length s) ++ s
       end.

(** [s.split (sep)] for a separator of one character, as the piece before the
    first occurrence of [sep] and the pieces after it: the array is never
    empty, so [s.split (sep)[0]] is always a string. *)
Fixpoint split_pieces (sep : ascii) (s : string) : string * list string :=
  match s with
  | EmptyString => (EmptyString, [])
  | String c rest =>
      let (piece, pieces) := split_pieces sep rest in
      if Ascii.eqb c sep then (EmptyString, piece :: pieces)
      else (String c piece, pieces)
  end.

Definition split (sep : ascii) (s : string) : list string :=
  let (piece, pieces) := split_pieces sep s in piece :: pieces.

(** [s.startsWith (p)]. *)
Definition startsWith (p s : string) : bool := String.prefix p s.

(** [xs.join (sep)]. *)
Fixpoint join (sep : string) (xs : list string) : string :=
  match xs with
  | [] => EmptyString
  | [x] => x
  | x :: rest => x ++ sep ++ join sep rest
  end.

(** [xs.map ((x, index) => f (x, index))], the index counted from [start]. *)
Fixpoint map_from {A B : Type} (f : A -> Z -> B) (start : Z) (xs : list A) : list B :=
  match xs with
  | [] => []
  | x :: rest => f x start :: map_from f (start + 1) rest
  end.

Definition map_indexed {A B : Type} (f : A -> Z -> B) (xs : list A) : list B :=
  map_from f 0 xs.

(** The reason a remote call rejects with, a value of type [any]: [undefined],
    [null], or any other value, of which the program reads [message]: the
    string that property holds, [None] when the value has no such property.
    ([ProcessingState] declares its message a string; a reason whose
    [message] is of another type is not modelled.) *)
Inductive Reason : Type :=
| ReasonUndefined
| ReasonNull
| ReasonValue (message : option string).

(** A thrown value (or the reason of a rejected promise), by where it comes
    from; the program reads nothing of it but [message]. *)
Inductive Thrown : Type :=
| Error (msg : string)              (* [new Error (msg)], thrown by the program *)
| RemoteFailure (reason : Reason)   (* the reason [generateContent] rejects with *)
| ReaderFailure                     (* the event [reader.onerror] rejects with *)
| SyntaxError (msg : string)        (* thrown by [JSON.parse] *)
| TypeError (msg : string).         (* thrown by a property read or a call *)

(** The message of the [TypeError] for reading property [key] of [undefined]
    or [null] (in the wording of V8). *)
Definition cannotReadMessage (nullish key : string) : string :=
  "Cannot read properties of " ++ nullish ++ " (reading '" ++ key ++ "')".

(** [e.message]: the read itself throws when [e] is [undefined] or [null]. *)
Definition thrown_message (e : Thrown) : Thrown + option string :=
  match e with
  | Error msg => inr (Some msg)
  | RemoteFailure ReasonUndefined =>
      inl (TypeError (cannotReadMessage "undefined" "message"))
  | RemoteFailure ReasonNull =>
      inl (TypeError (cannotReadMessage "null" "message"))
  | RemoteFailure (ReasonValue msg) => inr msg
  | ReaderFailure => inr None
  | SyntaxError msg => inr (Some msg)
  | TypeError msg => inr (Some msg)
  end.

(** A number of a parsed JSON text. *)
Inductive JSNumber : Type :=
| Integral (z : Z)
| Fractional (numerator : Z) (denominator : positive)
| Infinite (negative : bool).

(** A value as [JSON.parse] returns it, or [undefined] (what reading an
    absent property gives).  An object is the list of its own properties,
    each key once. *)
#[warnings="-register-all"]
Inductive JSValue : Type :=
| JSUndefined
| JSNull
| JSBoolean (b : bool)
| JSNum (n : JSNumber)
| JSString (s : string)
| JSArray (elements : list JSValue)
| JSObject (members : list (string * JSValue)).

Definition nullish (v : JSValue) : bool :=
  match v with
  | JSUndefined | JSNull => true
  | _ => false
  end.

Fixpoint lookup (key : string) (members : list (string * JSValue)) : JSValue :=
  match members with
  | [] => JSUndefined
  | (k, v) :: rest => if String.eqb k key then v else lookup key rest
  end.

(** The value of [v.key] for a [v] that is neither [undefined] nor [null] and
    a [key] that no prototype defines: the own property of an object, and
    [undefined] otherwise. *)
Definition property (key : string) (v : JSValue) : JSValue :=
  match v with
  | JSObject members => lookup key members
  | _ => JSUndefined
  end.

(** Reading [v.key]. *)
Definition getProperty (key : string) (v : JSValue) : Thrown + JSValue :=
  match v with
  | JSUndefined => inl (TypeError (cannotReadMessage "undefined" key))
  | JSNull => inl (TypeError (cannotReadMessage "null" key))
  | _ => inr (property key v)
  end.

(** [xs.map ((x, index) => f (x, index))] for a callback that may throw: the
    first throw ends the mapping. *)
Fixpoint map_from_throwing {A B : Type} (f : A -> Z -> Thrown + B) (start : Z)
    (xs : list A) : Thrown + list B :=
  match xs with
  | [] => inr []
  | x :: rest =>
      match f x start with
      | inl e => inl e
      | inr y =>
          match map_from_throwing f (start + 1) rest with
          | inl e => inl e
          | inr ys => inr (y :: ys)
          end
      end
  end.

Definition map_indexed_throwing {A B : Type} (f : A -> Z -> Thrown + B) (xs : list A)
  : Thrown + list B :=
  map_from_throwing f 0 xs.

(** *** The [Date] object, as far as [formatTime] uses it *)

(** The largest time value of a [Date], in milliseconds either side of the
    epoch (ECMA-262, Time Values and Time Range). *)
Definition maxTimeValue : Z := 8640000000000000.

Definition msPerSecond : Z := 1000.
Definition msPerMinute : Z := 60000.
Definition msPerHour : Z := 3600000.

(** [new Date (ms)]: the time value after [TimeClip]; [None] is the invalid
    date, whose time value is [NaN]. *)
Definition newDate (ms : Z) : option Z :=
  if Z.ltb maxTimeValue (Z.abs ms) then None else Some ms.

Definition getUTCHours (date : option Z) : option Z :=
  option_map (fun t => (t / msPerHour) mod 24) date.

Definition getUTCMinutes (date : option Z) : option Z :=
  option_map (fun t => (t / msPerMinute) mod 60) date.

Definition getUTCSeconds (date : option Z) : option Z :=
  option_map (fun t => (t / msPerSecond) mod 60) date.

Definition getUTCMilliseconds (date : option Z) : option Z :=
  option_map (fun t => t mod msPerSecond) date.

(** ** types.ts *)

Record SubtitleSegment : Type := mkSegment {
  id : Z;
  startMs : Z;
  endMs : Z;
  original : string;
  translation : string
}.

(** A segment as it is at run time.  The interface is erased: the object
    that [transcribeAudio] builds holds the number it computes as [id] and,
    for the other four properties, whatever values it was given. *)
Record SegmentObject : Type := mkSegmentObject {
  seg_id : Z;
  seg_startMs : JSValue;
  seg_endMs : JSValue;
  seg_original : JSValue;
  seg_translation : JSValue
}.

(** The segment object as a [SubtitleSegment], when its properties have the
    types of the interface. *)
Definition asSubtitleSegment (o : SegmentObject) : option SubtitleSegment :=
  match seg_startMs o, seg_endMs o, seg_original o, seg_translation o with
  | JSNum (Integral s), JSNum (Integral e), JSString a, JSString b =>
      Some {| id := seg_id o; startMs := s; endMs := e; original := a; translation := b |}
  | _, _, _, _ => None
  end.

Fixpoint asSubtitleSegments (os : list SegmentObject) : option (list SubtitleSegment) :=
  match os with
  | [] => Some []
  | o :: rest =>
      match asSubtitleSegment o, asSubtitleSegments rest with
      | Some seg, Some segs => Some (seg :: segs)
      | _, _ => None
      end
  end.

Inductive Status : Type := idle | uploading | analyzing | completed | error.

Record ProcessingState : Type := mkProcessingState {
  status : Status;
  message : option string
}.

(** ** utils/helpers.ts *)

Definition formatTime (ms : Z) : string :=
  let date := newDate ms in
  let hours := padStart 2 "0" (toString (getUTCHours date)) in
  let minutes := padStart 2 "0" (toString (getUTCMinutes date)) in
  let seconds := padStart 2 "0" (toString (getUTCSeconds date)) in
  let milliseconds := padStart 3 "0" (toString (getUTCMilliseconds date)) in
  hours ++ ":" ++ minutes ++ ":" ++ seconds ++ "," ++ milliseconds.

(** The template literal of [generateSRT]: four lines, each closed by a
    newline. *)
Definition srtBlock (seg : SubtitleSegment) (index : Z) : string :=
  toString (Some (index + 1)) ++ LF ++
  formatTime (startMs seg) ++ " --> " ++ formatTime (endMs seg) ++ LF ++
  original seg ++ LF ++
  translation seg ++ LF.

Definition generateSRT (segments : list SubtitleSegment) : string :=
  join LF (map_indexed srtBlock segments).

(** How the [FileReader] of [blobToBase64] ends: [onloadend] with
    [reader.result] (a data URL when it is a string, [None] otherwise), or
    [onerror]. *)
Inductive ReaderOutcome : Type :=
| LoadEnd (result : option string)
| ReadError.

Definition notBase64Message : string := "无法将 Blob 转换为 Base64".

(** [blobToBase64]: how its promise settles.  It resolves with
    [reader.result.split (',')[1]], which is [undefined] when the data URL
    has no comma. *)
Definition blobToBase64 (read : ReaderOutcome) : Thrown + option string :=
  match read with
  | LoadEnd (Some dataUrl) => inr (nth_error (split "," dataUrl) 1)
  | LoadEnd None => inl (Error notBase64Message)
  | ReadError => inl ReaderFailure
  end.

Definition twoSegments : list SubtitleSegment :=
  [ mkSegment 1 0 1000 "Hi" "嗨"; mkSegment 2 1000 2500 "Bye" "再见" ].

(** ** services/gemini.ts *)

Definition MODEL_NAME : string := "gemini-3-flash-preview".

Definition systemInstruction : string := "
    You are a professional subtitle translator and transcriber. 
    Your task is to analyze the provided audio file.
    1. Accurately transcribe every sentence (Original).
    2. Translate the sentence: 
       - If Original is English -> Translate to Simplified Chinese.
       - If Original is Chinese -> Translate to English.
       - If Mixed, translate to the other language primarily.
    3. Provide precise start and end timestamps in milliseconds.
    4. Ensure the segmentation is logical (by sentence or phrase).
    5. Return the result strictly as a JSON array.
  ".

(** The response schema handed to the service ([Type.ARRAY], [Type.OBJECT],
    [Type.INTEGER], [Type.STRING]). *)
#[warnings="-register-all"]
Inductive Schema : Type :=
| ARRAY (items : Schema)
| OBJECT (properties : list (string * Schema)) (required : list string)
| INTEGER (description : string)
| STRING (description : string).

Definition responseSchema : Schema :=
  ARRAY (OBJECT
    [ ("startMs", INTEGER "Start time in milliseconds");
      ("endMs", INTEGER "End time in milliseconds");
      ("original", STRING "The transcribed original text");
      ("translation", STRING "The translated text") ]
    [ "startMs"; "endMs"; "original"; "translation" ]).

(** The argument of [ai.models.generateContent].  The payload is an
    [option]: [blobToBase64] resolves with [undefined] when the data URL has
    no comma. *)
Record Request : Type := mkRequest {
  req_model : string;
  req_mimeType : string;
  req_data : option string;
  req_text : string;
  req_systemInstruction : string;
  req_responseMimeType : string;
  req_responseSchema : Schema
}.

Definition missingKeyMessage : string := "缺少 API 密钥。请检查您的环境配置。".
Definition noResponseMessage : string := "Gemini 没有响应。".
Definition notAFunctionMessage : string := "parsed.map is not a function".

(** How the remote call settles: fulfilled with a response whose [text] may
    be absent, or rejected. *)
Inductive ServiceOutcome : Type :=
| Fulfilled (text : option string)
| Rejected (reason : Reason).

(** What the program does that is seen outside the component state.  The
    text of a copy or a download is [generateSRT] of the segments when these
    have the types of the interface, and is left open ([None]) when they do
    not. *)
Inductive Effect : Type :=
| Alert (msg : string)
| ClipboardWrite (text : option string)
| Download (filename : string) (body : option string)
| Invoke_transcribeAudio (base64Audio : option string) (mimeType apiKey : string)
| NewGoogleGenAI (apiKey : string)
| GenerateContent (request : Request)
| ConsoleError (e : Thrown)
| UnhandledRejection (e : Thrown).

(** JavaScript truthiness of a string that may be [undefined]. *)
Definition truthy (s : option string) : bool :=
  match s with
  | Some (String _ _) => true
  | _ => false
  end.

(** [s || fallback]. *)
Definition or_else (s : option string) (fallback : string) : string :=
  if truthy s then match s with Some v => v | None => fallback end else fallback.

(** The element mapping of [transcribeAudio]: the object literal reads four
    properties of [item], which throws when [item] is [null]. *)
Definition toSegment (item : JSValue) (index : Z) : Thrown + SegmentObject :=
  match getProperty "startMs" item with
  | inl e => inl e
  | inr itemStartMs =>
  match getProperty "endMs" item with
  | inl e => inl e
  | inr itemEndMs =>
  match getProperty "original" item with
  | inl e => inl e
  | inr itemOriginal =>
  match getProperty "translation" item with
  | inl e => inl e
  | inr itemTranslation =>
      inr {| seg_id := index + 1;
             seg_startMs := itemStartMs;
             seg_endMs := itemEndMs;
             seg_original := itemOriginal;
             seg_translation := itemTranslation |}
  end end end end.

(** [transcribeAudio] up to its [await]: the key check and the request. *)
Definition transcribeAudio_request
    (base64Audio : option string) (mimeType apiKey : string) : Thrown + Request :=
  if negb (truthy (Some apiKey)) then inl (Error missingKeyMessage)
  else inr {| req_model := MODEL_NAME;
              req_mimeType := mimeType;
              req_data := base64Audio;
              req_text := "Generate subtitles for this audio.";
              req_systemInstruction := systemInstruction;
              req_responseMimeType := "application/json";
              req_responseSchema := responseSchema |}.

Section Gemini.

(** [JSON.parse], a function of the runtime: the parsed value, or the
    message of the [SyntaxError] it throws. *)
Variable JSON_parse : string -> string + JSValue.

(** The body of the [try] block after the [await].  Past the check of
    [jsonText] the text is a non-empty string, which [JSON.parse] gets. *)
Definition transcribeAudio_response (outcome : ServiceOutcome)
  : Thrown + list SegmentObject :=
  match outcome with
  | Rejected reason => inl (RemoteFailure reason)
  | Fulfilled jsonText =>
      if negb (truthy jsonText) then inl (Error noResponseMessage)
      else match JSON_parse (or_else jsonText EmptyString) with
           | inl msg => inl (SyntaxError msg)
           | inr (JSArray elements) => map_indexed_throwing toSegment elements
           | inr JSUndefined => inl (TypeError (cannotReadMessage "undefined" "map"))
           | inr JSNull => inl (TypeError (cannotReadMessage "null" "map"))
           | inr _ => inl (TypeError notAFunctionMessage)
           end
  end.

(** The [catch] block: log and rethrow. *)
Definition transcribeAudio_catch (r : Thrown + list SegmentObject) : list Effect :=
  match r with
  | inl e => [ConsoleError e]
  | inr _ => []
  end.

(** [transcribeAudio], against a service that answers a request with
    [respond]: what it does, and how its promise settles. *)
Definition transcribeAudio
    (base64Audio : option string) (mimeType apiKey : string)
    (respond : Request -> ServiceOutcome)
  : list Effect * (Thrown + list SegmentObject) :=
  match transcribeAudio_request base64Audio mimeType apiKey with
  | inl e => ([], inl e)
  | inr request =>
      let r := transcribeAudio_response (respond request) in
      (([NewGoogleGenAI apiKey; GenerateContent request] ++ transcribeAudio_catch r)%list, r)
  end.

End Gemini.

(** ** App.tsx *)

Definition MAX_FILE_SIZE : Z := 15 * 1024 * 1024.

(** A [File], by what the component reads of it. *)
Record File : Type := mkFile {
  name : string;
  size : Z;
  type : string
}.

(** The state of the component that the handlers below read or write.  The
    object URL is identified with the file it was created for.  The active
    tab and the playback flag are left out: no handler below touches them.
    The segments are the objects [transcribeAudio] returned, as they are. *)
Record AppState : Type := mkAppState {
  file : option File;
  audioUrl : option File;
  processingState : ProcessingState;
  segments : list SegmentObject
}.

(** A call of [processAudio] suspended at one of its two [await]s. *)
Inductive Task : Type :=
| AwaitingBase64 (f : File)           (* at [await blobToBase64 (file)] *)
| AwaitingResponse (request : Request). (* at [await transcribeAudio (...)] *)

(** The component state, the effects performed so far (oldest first) and the
    calls of [processAudio] in flight. *)
Record World : Type := mkWorld {
  app : AppState;
  effects : list Effect;
  tasks : list Task
}.

Definition initialApp : AppState :=
  {| file := None;
     audioUrl := None;
     processingState := {| status := idle; message := None |};
     segments := [] |}.

Definition initialWorld : World :=
  {| app := initialApp; effects := []; tasks := [] |}.

Definition update (f : AppState -> AppState) (w : World) : World :=
  {| app := f (app w); effects := effects w; tasks := tasks w |}.

Definition setFile (v : option File) : World -> World :=
  update (fun a => {| file := v; audioUrl := audioUrl a;
                      processingState := processingState a; segments := segments a |}).

Definition setAudioUrl (v : option File) : World -> World :=
  update (fun a => {| file := file a; audioUrl := v;
                      processingState := processingState a; segments := segments a |}).

Definition setSegments (v : list SegmentObject) : World -> World :=
  update (fun a => {| file := file a; audioUrl := audioUrl a;
                      processingState := processingState a; segments := v |}).

Definition setProcessingState (v : ProcessingState) : World -> World :=
  update (fun a => {| file := file a; audioUrl := audioUrl a;
                      processingState := v; segments := segments a |}).

Definition perform (es : list Effect) (w : World) : World :=
  {| app := app w; effects := (effects w ++ es)%list; tasks := tasks w |}.

Definition spawn (t : Task) (w : World) : World :=
  {| app := app w; effects := effects w; tasks := (tasks w ++ [t])%list |}.

Fixpoint remove_nth {A : Type} (i : nat) (xs : list A) : list A :=
  match xs, i with
  | [], _ => []
  | _ :: rest, O => rest
  | x :: rest, S j => x :: remove_nth j rest
  end.

Definition finish (i : nat) (w : World) : World :=
  {| app := app w; effects := effects w; tasks := remove_nth i (tasks w) |}.

Definition tooLargeMessage : string := "文件过大。请上传小于 15MB 的音频文件。".
Definition notMediaMessage : string := "请拖放有效的音频或视频文件。".
Definition preparingMessage : string := "正在准备音频...".
Definition listeningMessage : string := "Gemini 正在聆听并翻译...".
Definition unexpectedMessage : string := "发生了意外错误。".
Definition copiedMessage : string := "SRT 已复制到剪贴板！".

(** The four state updates both handlers make for a file they take. *)
Definition selectFile (selectedFile : File) (w : World) : World :=
  setProcessingState {| status := idle; message := None |}
    (setSegments []
      (setAudioUrl (Some selectedFile)
        (setFile (Some selectedFile) w))).

(** [handleFileChange]; [files] is [e.target.files[0]] when there is one. *)
Definition handleFileChange (files : option File) (w : World) : World :=
  match files with
  | Some selectedFile =>
      if size selectedFile >? MAX_FILE_SIZE
      then perform [Alert tooLargeMessage] w
      else selectFile selectedFile w
  | None => w
  end.

(** [handleDrop]; [files] is [e.dataTransfer.files[0]] when there is one. *)
Definition handleDrop (files : option File) (w : World) : World :=
  match files with
  | Some selectedFile =>
      if startsWith "audio/" (type selectedFile)
         || startsWith "video/" (type selectedFile)
      then
        if size selectedFile >? MAX_FILE_SIZE
        then perform [Alert tooLargeMessage] w
        else selectFile selectedFile w
      else perform [Alert notMediaMessage] w
  | None => w
  end.

(** The [catch] block of [processAudio].  When reading [error.message]
    throws, no state is set and the promise of [processAudio] rejects, with
    nothing to handle it. *)
Definition processAudio_catch (e : Thrown) (w : World) : World :=
  match thrown_message e with
  | inl e' => perform [UnhandledRejection e'] w
  | inr msg =>
      setProcessingState
        {| status := error; message := Some (or_else msg unexpectedMessage) |} w
  end.

(** [file.type || 'audio/mp3']. *)
Definition mimeTypeOf (f : File) : string := or_else (Some (type f)) "audio/mp3".

(** The name [handleDownloadSRT] gives the download. *)
Definition downloadName (f : option File) : string :=
  or_else (match f with
           | Some f' => nth_error (split "." (name f')) 0
           | None => None
           end) "subtitle" ++ ".srt".

(** [generateSRT (segments)] as the handlers call it on the state. *)
Definition srtText (w : World) : option string :=
  option_map generateSRT (asSubtitleSegments (segments (app w))).

Definition handleCopySRT (w : World) : World :=
  perform [ClipboardWrite (srtText w); Alert copiedMessage] w.

Definition handleDownloadSRT (w : World) : World :=
  perform [Download (downloadName (file (app w))) (srtText w)] w.

(** The click handlers written inline in the markup. *)
Definition handleRemove (w : World) : World :=
  setProcessingState {| status := idle; message := None |}
    (setSegments [] (setFile None w)).

Definition handleRetry : World -> World :=
  setProcessingState {| status := idle; message := None |}.

Section App.

Variable JSON_parse : string -> string + JSValue.

(** [process.env.API_KEY]. *)
Variable API_KEY : option string.

(** [processAudio], run without interruption against a file reader that
    ends with [read] and a service that answers with [respond]. *)
Definition processAudio
    (read : ReaderOutcome) (respond : Request -> ServiceOutcome) (w : World) : World :=
  match file (app w) with
  | None => w
  | Some f =>
      let w := setProcessingState
                 {| status := uploading; message := Some preparingMessage |} w in
      match blobToBase64 read with
      | inl e => processAudio_catch e w
      | inr base64 =>
          let mimeType := mimeTypeOf f in
          let w := setProcessingState
                     {| status := analyzing; message := Some listeningMessage |} w in
          let apiKey := or_else API_KEY EmptyString in
          let w := perform [Invoke_transcribeAudio base64 mimeType apiKey] w in
          let (done, settled) := transcribeAudio JSON_parse base64 mimeType apiKey respond in
          let w := perform done w in
          match settled with
          | inr result =>
              setProcessingState {| status := completed; message := None |}
                (setSegments result w)
          | inl e => processAudio_catch e w
          end
      end
  end.

(** The same function cut at its two [await]s, for runs in which other
    events come in between. *)

(** From the click to [await blobToBase64 (file)]. *)
Definition processAudio_begin (w : World) : World :=
  match file (app w) with
  | None => w
  | Some f =>
      spawn (AwaitingBase64 f)
        (setProcessingState
           {| status := uploading; message := Some preparingMessage |} w)
  end.

(** From the end of the file reader to the [await] of the remote call (or
    to the [catch] block, when there is nothing to wait for). *)
Definition processAudio_read (f : File) (read : ReaderOutcome) (w : World) : World :=
  match blobToBase64 read with
  | inl e => processAudio_catch e w
  | inr base64 =>
      let mimeType := mimeTypeOf f in
      let w := setProcessingState
                 {| status := analyzing; message := Some listeningMessage |} w in
      let apiKey := or_else API_KEY EmptyString in
      let w := perform [Invoke_transcribeAudio base64 mimeType apiKey] w in
      match transcribeAudio_request base64 mimeType apiKey with
      | inl e => processAudio_catch e w
      | inr request =>
          spawn (AwaitingResponse request)
            (perform [NewGoogleGenAI apiKey; GenerateContent request] w)
      end
  end.

(** From the answer of the service to the end. *)
Definition processAudio_response (outcome : ServiceOutcome) (w : World) : World :=
  let settled := transcribeAudio_response JSON_parse outcome in
  let w := perform (transcribeAudio_catch settled) w in
  match settled with
  | inr result =>
      setProcessingState {| status := completed; message := None |}
        (setSegments result w)
  | inl e => processAudio_catch e w
  end.

(** *** The component as a transition system *)

(** What can happen: the user acts on a control, or a suspended call of
    [processAudio] (the [i]-th in flight) is resumed. *)
Inductive Event : Type :=
| PickFile (files : option File)
| DropFile (files : option File)
| ClickStart
| ClickRemove
| ClickRetry
| ClickCopy
| ClickDownload
| ReaderDone (i : nat) (read : ReaderOutcome)
| ServiceDone (i : nat) (outcome : ServiceOutcome).

(** One event; [None] when the markup does not render the control in this
    state, or the task is not there.  The file input and the drop area are
    always mounted; the remove button needs a file, the start button a file
    and status [idle], the retry button status [error], the copy and
    download buttons a segment. *)
Definition step (ev : Event) (w : World) : option World :=
  let a := app w in
  match ev with
  | PickFile files => Some (handleFileChange files w)
  | DropFile files => Some (handleDrop files w)
  | ClickStart =>
      match file a, status (processingState a) with
      | Some _, idle => Some (processAudio_begin w)
      | _, _ => None
      end
  | ClickRemove =>
      match file a with
      | Some _ => Some (handleRemove w)
      | None => None
      end
  | ClickRetry =>
      match status (processingState a) with
      | error => Some (handleRetry w)
      | _ => None
      end
  | ClickCopy =>
      match segments a with
      | _ :: _ => Some (handleCopySRT w)
      | [] => None
      end
  | ClickDownload =>
      match segments a with
      | _ :: _ => Some (handleDownloadSRT w)
      | [] => None
      end
  | ReaderDone i read =>
      match nth_error (tasks w) i with
      | Some (AwaitingBase64 f) => Some (processAudio_read f read (finish i w))
      | _ => None
      end
  | ServiceDone i outcome =>
      match nth_error (tasks w) i with
      | Some (AwaitingResponse _) => Some (processAudio_response outcome (finish i w))
      | _ => None
      end
  end.

Fixpoint run (evs : list Event) (w : World) : option World :=
  match evs with
  | [] => Some w
  | ev :: rest =>
      match step ev w with
      | Some w' => run rest w'
      | None => None
      end
  end.

Definition reachable (w : World) : Prop :=
  exists evs, run evs initialWorld = Some w.

(** The same system with the start button also held back while a call of
    [processAudio] is in flight. *)
Definition step_exclusive (ev : Event) (w : World) : option World :=
  match ev, tasks w with
  | ClickStart, _ :: _ => None
  | _, _ => step ev w
  end.

Fixpoint run_exclusive (evs : list Event) (w : World) : option World :=
  match evs with
  | [] => Some w
  | ev :: rest =>
      match step_exclusive ev w with
      | Some w' => run_exclusive rest w'
      | None => None
      end
  end.

(** The invariant of the data model. *)
Definition segments_only_when_completed (w : World) : Prop :=
  segments (app w) <> [] -> status (processingState (app w)) = completed.

End App.

(** ** Vocabulary of the specification *)

(** The error kinds of the specification.  The program throws plain [Error]s;
    a kind is told by where the value comes from. *)
Definition ConfigurationError (e : Thrown) : Prop :=
  e = Error missingKeyMessage.

Definition ServiceError (e : Thrown) : Prop :=
  e = Error noResponseMessage \/ exists reason, e = RemoteFailure reason.

(** The decimal digit [d], and numerals of fixed width. *)
Definition digit (d : Z) : ascii := ascii_of_nat (48 + Z.to_nat d).

Definition twoDigits (n : Z) : string :=
  String (digit (n / 10)) (String (digit (n mod 10)) EmptyString).

Definition threeDigits (n : Z) : string :=
  String (digit (n / 100)) (twoDigits (n mod 100)).

Definition isDigit (c : ascii) : bool :=
  (Nat.leb 48 (nat_of_ascii c) && Nat.leb (nat_of_ascii c) 57)%bool.

Definition digitValue (c : ascii) : Z := Z.of_nat (nat_of_ascii c) - 48.

(** [s] has the shape [pattern], where a [D] of the pattern stands for any
    decimal digit and every other character for itself. *)
Fixpoint hasShape (pattern s : string) : bool :=
  match pattern, s with
  | EmptyString, EmptyString => true
  | String p pattern', String c s' =>
      (if Ascii.eqb p "D" then isDigit c else Ascii.eqb p c) && hasShape pattern' s'
  | _, _ => false
  end.

(** The number written by the first two characters of a timestamp. *)
Definition hoursField (s : string) : option Z :=
  match s with
  | String a (String b _) =>
      if isDigit a && isDigit b then Some (10 * digitValue a + digitValue b) else None
  | _ => None
  end.

(** A handler took the file [f]: it is the selected file, the segments are
    cleared, the status is [idle]; nothing else happened. *)
Definition accepted (f : File) (w w' : World) : Prop :=
  file (app w') = Some f /\
  segments (app w') = [] /\
  status (processingState (app w')) = idle /\
  effects w' = effects w /\
  tasks w' = tasks w.

(** A handler turned the file down: the user is told, the component state is
    what it was, and no call of [processAudio] was started. *)
Definition rejected (w w' : World) : Prop :=
  app w' = app w /\
  tasks w' = tasks w /\
  exists msg, effects w' = (effects w ++ [Alert msg])%list.

(** What holds while at most one analysis is in flight. *)
Definition exclusive_inv (w : World) : Prop :=
  (List.length (tasks w) <= 1)%nat /\
  (tasks w <> [] -> segments (app w) = []) /\
  segments_only_when_completed w.

(** The requests sent to the service, the calls of [transcribeAudio] and the
    clients built, among effects. *)
Fixpoint networkCalls (es : list Effect) : list Request :=
  match es with
  | [] => []
  | GenerateContent request :: rest => request :: networkCalls rest
  | _ :: rest => networkCalls rest
  end.

Fixpoint invocations (es : list Effect) : list (option string * string * string) :=
  match es with
  | [] => []
  | Invoke_transcribeAudio base64Audio mimeType apiKey :: rest =>
      (base64Audio, mimeType, apiKey) :: invocations rest
  | _ :: rest => invocations rest
  end.

Fixpoint clientsBuilt (es : list Effect) : list string :=
  match es with
  | [] => []
  | NewGoogleGenAI apiKey :: rest => apiKey :: clientsBuilt rest
  | _ :: rest => clientsBuilt rest
  end.

(** [c] occurs in [s]. *)
Fixpoint occurs (c : ascii) (s : string) : bool :=
  match s with
  | EmptyString => false
  | String x rest => Ascii.eqb x c || occurs c rest
  end.

(** The object that the mapping of [transcribeAudio] builds from an element
    whose properties can be read. *)
Definition segmentOf (item : JSValue) (index : Z) : SegmentObject :=
  {| seg_id := index + 1;
     seg_startMs := property "startMs" item;
     seg_endMs := property "endMs" item;
     seg_original := property "original" item;
     seg_translation := property "translation" item |}.

(** The numbers below [n]. *)
Definition below (n : nat) : list Z := map Z.of_nat (seq 0 n).

(** ** Sample data *)

Definition dquote : string := String (ascii_of_nat 34) EmptyString.

Definition quoted (s : string) : string := dquote ++ s ++ dquote.

(** A response text of one element, which carries an [id] of its own. *)
Definition sampleText : string :=
  "[{" ++ quoted "id" ++ ":7," ++ quoted "startMs" ++ ":0," ++
  quoted "endMs" ++ ":1000," ++ quoted "original" ++ ":" ++ quoted "Hi" ++ "," ++
  quoted "translation" ++ ":" ++ quoted "嗨" ++ "}]".

Definition sampleItem : JSValue :=
  JSObject [ ("id", JSNum (Integral 7));
             ("startMs", JSNum (Integral 0)); ("endMs", JSNum (Integral 1000));
             ("original", JSString "Hi"); ("translation", JSString "嗨") ].

(** A second element, whose [id] disagrees with its place. *)
Definition secondItem : JSValue :=
  JSObject [ ("startMs", JSNum (Integral 1000)); ("endMs", JSNum (Integral 2500));
             ("original", JSString "Bye"); ("translation", JSString "再见");
             ("id", JSNum (Integral 1)) ].

(** A response text of the two elements. *)
Definition pairText : string :=
  "[{" ++ quoted "id" ++ ":7," ++ quoted "startMs" ++ ":0," ++
  quoted "endMs" ++ ":1000," ++ quoted "original" ++ ":" ++ quoted "Hi" ++ "," ++
  quoted "translation" ++ ":" ++ quoted "嗨" ++ "},{" ++
  quoted "startMs" ++ ":1000," ++ quoted "endMs" ++ ":2500," ++
  quoted "original" ++ ":" ++ quoted "Bye" ++ "," ++
  quoted "translation" ++ ":" ++ quoted "再见" ++ "," ++ quoted "id" ++ ":1}]".

(** [JSON.parse] on the texts the examples use. *)
Definition sampleParse (s : string) : string + JSValue :=
  if String.eqb s sampleText then inr (JSArray [sampleItem])
  else if String.eqb s pairText then inr (JSArray [sampleItem; secondItem])
  else if String.eqb s "[]" then inr (JSArray [])
  else if String.eqb s "[null]" then inr (JSArray [JSNull])
  else if String.eqb s "[5]" then inr (JSArray [JSNum (Integral 5)])
  else if String.eqb s "{}" then inr (JSObject [])
  else if String.eqb s "null" then inr JSNull
  else inl "Unexpected token".

Definition sampleKey : option string := Some "key".

Definition song : File := {| name := "song.mp3"; size := 4096; type := "audio/mpeg" |}.

Definition clip : File := {| name := "clip.mp4"; size := 8192; type := "video/mp4" |}.

Definition untyped : File := {| name := "take"; size := 10; type := EmptyString |}.

Definition dotted : File :=
  {| name := "my.audio.file.mp3"; size := 4096; type := "audio/mpeg" |}.

Definition sampleDataUrl : string := "data:audio/mpeg;base64,SGk=".

(** Two analyses in flight at once: a second file is dropped while the first
    is being analysed, its analysis is started, the first answer arrives, and
    then the reader of the second file ends. *)
Definition overlappingRun : list Event :=
  [ DropFile (Some song); ClickStart; ReaderDone 0 (LoadEnd (Some sampleDataUrl));
    DropFile (Some clip); ClickStart;
    ServiceDone 0 (Fulfilled (Some sampleText));
    ReaderDone 0 (LoadEnd (Some sampleDataUrl)) ].

(** * Properties *)

(** ** Time Formatter *)

Lemma below_spec (P : Z -> bool) (n : nat) :
  forallb P (below n) = true -> forall z, 0 <= z < Z.of_nat n -> P z = true.
Proof.
  intros Hall z Hz.
  rewrite forallb_forall in Hall. apply Hall.
  unfold below. apply in_map_iff. exists (Z.to_nat z). split.
  - lia.
  - apply in_seq. lia.
Qed.

Lemma pad2_twoDigits (n : Z) :
  0 <= n < 100 -> padStart 2 "0" (toString (Some n)) = twoDigits n.
Proof.
  intro Hn.
  apply String.eqb_eq.
  apply (below_spec (fun z => String.eqb (padStart 2 "0" (toString (Some z))) (twoDigits z)) 100).
  - vm_compute. reflexivity.
  - exact Hn.
Qed.

Lemma pad3_threeDigits (n : Z) :
  0 <= n < 1000 -> padStart 3 "0" (toString (Some n)) = threeDigits n.
Proof.
  intro Hn.
  apply String.eqb_eq.
  apply (below_spec (fun z => String.eqb (padStart 3 "0" (toString (Some z))) (threeDigits z)) 1000).
  - vm_compute. reflexivity.
  - exact Hn.
Qed.

Lemma digit_isDigit (d : Z) : 0 <= d < 10 -> isDigit (digit d) = true.
Proof.
  apply (below_spec (fun z => isDigit (digit z)) 10). vm_compute. reflexivity.
Qed.

Lemma digit_value (d : Z) : 0 <= d < 10 -> digitValue (digit d) = d.
Proof.
  intro Hd. apply Z.eqb_eq.
  apply (below_spec (fun z => Z.eqb (digitValue (digit z)) z) 10).
  - vm_compute. reflexivity.
  - exact Hd.
Qed.

Lemma newDate_valid (ms : Z) : 0 <= ms <= maxTimeValue -> newDate ms = Some ms.
Proof.
  intro Hms. unfold newDate.
  destruct (Z.ltb_spec maxTimeValue (Z.abs ms)) as [Hout | _]; [lia | reflexivity].
Qed.

(** On a valid time value the four fields are the fixed-width numerals of the
    UTC decomposition. *)
Lemma formatTime_fields (ms : Z) :
  0 <= ms <= maxTimeValue ->
  formatTime ms =
    twoDigits ((ms / 3600000) mod 24) ++ ":" ++
    twoDigits ((ms / 60000) mod 60) ++ ":" ++
    twoDigits ((ms / 1000) mod 60) ++ "," ++
    threeDigits (ms mod 1000).
Proof.
  intro Hms. unfold formatTime. rewrite (newDate_valid ms Hms).
  unfold getUTCHours, getUTCMinutes, getUTCSeconds, getUTCMilliseconds,
    msPerHour, msPerMinute, msPerSecond, option_map.
  pose proof (Z.mod_pos_bound (ms / 3600000) 24 eq_refl) as Hh.
  pose proof (Z.mod_pos_bound (ms / 60000) 60 eq_refl) as Hm.
  pose proof (Z.mod_pos_bound (ms / 1000) 60 eq_refl) as Hs.
  pose proof (Z.mod_pos_bound ms 1000 eq_refl) as Hl.
  rewrite !pad2_twoDigits by lia.
  rewrite pad3_threeDigits by lia.
  reflexivity.
Qed.

(** C8.  [formatTime 0], [formatTime 3661005] and [formatTime 59999] are
    ["00:00:00,000"], ["01:01:01,005"] and ["00:00:59,999"]; and on a valid
    time value the result is hours, minutes and seconds of the UTC
    decomposition padded to two digits, milliseconds padded to three, joined
    as [HH:MM:SS,mmm]. *)
Theorem formatTime_examples :
  formatTime 0 = "00:00:00,000" /\
  formatTime 3661005 = "01:01:01,005" /\
  formatTime 59999 = "00:00:59,999" /\
  (forall ms, 0 <= ms <= maxTimeValue ->
     formatTime ms =
       twoDigits ((ms / 3600000) mod 24) ++ ":" ++
       twoDigits ((ms / 60000) mod 60) ++ ":" ++
       twoDigits ((ms / 1000) mod 60) ++ "," ++
       threeDigits (ms mod 1000)).
Proof.
  repeat split; try reflexivity.
  exact formatTime_fields.
Qed.

Lemma formatTime_examples_witness :
  0 <= 3661005 <= maxTimeValue /\
  formatTime 3661005 =
    twoDigits 1 ++ ":" ++ twoDigits 1 ++ ":" ++ twoDigits 1 ++ "," ++ threeDigits 5.
Proof.
  split.
  - unfold maxTimeValue. lia.
  - apply (proj2 (proj2 (proj2 formatTime_examples)) 3661005).
    unfold maxTimeValue. lia.
Defined.

Lemma twoDigits_shape (n : Z) (pattern rest : string) :
  0 <= n < 100 ->
  hasShape (String "D" (String "D" pattern)) (twoDigits n ++ rest) = hasShape pattern rest.
Proof.
  intro Hn. unfold twoDigits. cbn [append hasShape].
  rewrite Ascii.eqb_refl, !digit_isDigit.
  - reflexivity.
  - apply Z.mod_pos_bound. lia.
  - split; [apply Z.div_pos; lia | apply Z.div_lt_upper_bound; lia].
Qed.

Lemma separator_shape (c : ascii) (pattern rest : string) :
  Ascii.eqb c "D" = false ->
  hasShape (String c pattern) (String c EmptyString ++ rest) = hasShape pattern rest.
Proof.
  intro Hc. cbn [append hasShape]. rewrite Hc, Ascii.eqb_refl. reflexivity.
Qed.

Lemma threeDigits_shape (n : Z) :
  0 <= n < 1000 -> hasShape "DDD" (threeDigits n) = true.
Proof.
  apply (below_spec (fun z => hasShape "DDD" (threeDigits z)) 1000).
  vm_compute. reflexivity.
Qed.

Lemma twoDigits_value (n : Z) (rest : string) :
  0 <= n < 100 -> hoursField (twoDigits n ++ rest) = Some n.
Proof.
  intro Hn.
  assert (Hq : 0 <= n / 10 < 10)
    by (split; [apply Z.div_pos; lia | apply Z.div_lt_upper_bound; lia]).
  assert (Hr : 0 <= n mod 10 < 10) by (apply Z.mod_pos_bound; lia).
  unfold twoDigits, hoursField. cbn [append].
  rewrite !digit_isDigit, !digit_value by assumption.
  cbn [andb]. f_equal.
  rewrite (Z.div_mod n 10) at 3 by lia. reflexivity.
Qed.

(** C9, as far as it holds: for every time value from [0] to the largest one
    of a [Date], [formatTime] returns a string of the shape [DD:DD:DD,DDD]
    whose hours field is [floor (ms / 3600000) mod 24]; so the hours wrap
    around at 24 hours, and [formatTime 86400000] is ["00:00:00,000"]. *)
Theorem formatTime_shape (ms : Z) :
  0 <= ms <= maxTimeValue ->
  hasShape "DD:DD:DD,DDD" (formatTime ms) = true /\
  hoursField (formatTime ms) = Some ((ms / 3600000) mod 24) /\
  formatTime 86400000 = "00:00:00,000".
Proof.
  intro Hms.
  pose proof (Z.mod_pos_bound (ms / 3600000) 24 eq_refl) as Hh.
  pose proof (Z.mod_pos_bound (ms / 60000) 60 eq_refl) as Hm.
  pose proof (Z.mod_pos_bound (ms / 1000) 60 eq_refl) as Hs.
  pose proof (Z.mod_pos_bound ms 1000 eq_refl) as Hl.
  rewrite (formatTime_fields ms Hms).
  split; [| split].
  - rewrite twoDigits_shape by lia.
    rewrite separator_shape by reflexivity.
    rewrite twoDigits_shape by lia.
    rewrite separator_shape by reflexivity.
    rewrite twoDigits_shape by lia.
    rewrite separator_shape by reflexivity.
    apply threeDigits_shape. lia.
  - apply twoDigits_value. lia.
  - reflexivity.
Qed.

Lemma formatTime_shape_witness :
  0 <= 90000000 <= maxTimeValue /\
  hasShape "DD:DD:DD,DDD" (formatTime 90000000) = true /\
  hoursField (formatTime 90000000) = Some 1 /\
  formatTime 86400000 = "00:00:00,000".
Proof.
  split.
  - unfold maxTimeValue. lia.
  - apply (formatTime_shape 90000000). unfold maxTimeValue. lia.
Defined.

(** C9 as stated fails past the range of [Date]: one millisecond beyond the
    largest time value the date is invalid and every field reads [NaN]. *)
Lemma formatTime_out_of_range :
  0 <= 8640000000000001 /\
  formatTime 8640000000000001 = "NaN:NaN:NaN,NaN" /\
  hasShape "DD:DD:DD,DDD" (formatTime 8640000000000001) = false /\
  hoursField (formatTime 8640000000000001) <> Some ((8640000000000001 / 3600000) mod 24).
Proof.
  split; [lia |]. split; [reflexivity |]. split; [reflexivity |].
  vm_compute. discriminate.
Qed.

(** ** Subtitle Serializer *)

Lemma generateSRT_nil : generateSRT [] = EmptyString.
Proof. reflexivity. Qed.

(** C1, as far as it holds: for the two-segment input [generateSRT] returns
    the two blocks separated by exactly one blank line, and the only content
    after the last translation line is the newline that closes it. *)
Theorem generateSRT_two_segments :
  generateSRT twoSegments =
  "1
00:00:00,000 --> 00:00:01,000
Hi
嗨

2
00:00:01,000 --> 00:00:02,500
Bye
再见
".
Proof. reflexivity. Qed.

(** C1 as stated fails: the result is not the text that stops right after
    the last translation line; it is one character longer. *)
Lemma generateSRT_trailing_newline :
  generateSRT twoSegments <>
  "1
00:00:00,000 --> 00:00:01,000
Hi
嗨

2
00:00:01,000 --> 00:00:02,500
Bye
再见".
Proof.
  intro H. apply (f_equal String.length) in H. vm_compute in H. discriminate.
Qed.

Lemma append_assoc (a b c : string) : (a ++ b) ++ c = a ++ (b ++ c).
Proof.
  induction a as [| x a IH]; cbn [append]; [reflexivity | now rewrite IH].
Qed.

(** Every block ends with a newline, whatever the segment. *)
Lemma srtBlock_ends_with_newline (seg : SubtitleSegment) (index : Z) :
  exists body, srtBlock seg index = body ++ LF.
Proof.
  unfold srtBlock.
  exists (toString (Some (index + 1)) ++ LF ++
          formatTime (startMs seg) ++ " --> " ++ formatTime (endMs seg) ++ LF ++
          original seg ++ LF ++ translation seg).
  rewrite !append_assoc. reflexivity.
Qed.

(** ** File name of the download *)

Lemma split_pieces_no_sep (sep : ascii) (s : string) :
  occurs sep s = false -> split_pieces sep s = (s, []).
Proof.
  induction s as [| c s IH]; cbn [occurs split_pieces]; intro H.
  - reflexivity.
  - apply orb_false_iff in H. destruct H as [Hc Hs].
    rewrite (IH Hs), Hc. reflexivity.
Qed.

Lemma split_pieces_first (sep : ascii) (stem rest : string) :
  occurs sep stem = false ->
  fst (split_pieces sep (stem ++ String sep rest)) = stem.
Proof.
  induction stem as [| c stem IH]; cbn [occurs append split_pieces]; intro H.
  - destruct (split_pieces sep rest). rewrite Ascii.eqb_refl. reflexivity.
  - apply orb_false_iff in H. destruct H as [Hc Hs].
    specialize (IH Hs). destruct (split_pieces sep (stem ++ String sep rest)).
    rewrite Hc. cbn [fst] in *. now rewrite IH.
Qed.

Lemma downloadName_no_file : downloadName None = "subtitle.srt".
Proof. reflexivity. Qed.

(** X9.  The download is named after what stands before the first dot of the
    file name, when that is not empty. *)
Lemma downloadName_first_dot (stem rest : string) (sz : Z) (ty : string) :
  occurs "." stem = false -> stem <> EmptyString ->
  downloadName (Some {| name := stem ++ "." ++ rest; size := sz; type := ty |})
  = stem ++ ".srt".
Proof.
  intros Hdot Hstem. unfold downloadName, split. cbn [name].
  pose proof (split_pieces_first "." stem rest Hdot) as Hfst.
  change ("." ++ rest) with (String "." rest).
  destruct (split_pieces "." (stem ++ String "." rest)) as [piece pieces].
  cbn [fst] in Hfst. subst piece. cbn [nth_error].
  destruct stem; [contradiction | reflexivity].
Qed.

(** C2, on a file name with more than one dot: the download of
    [my.audio.file.mp3] is named [my.srt], not [my.audio.file.srt]. *)
Theorem downloadName_dotted :
  downloadName (Some dotted) = "my.srt" /\
  downloadName (Some dotted) <> "my.audio.file.srt".
Proof.
  split; [reflexivity | discriminate].
Qed.

(** ** File selection *)

Lemma selectFile_accepted (f : File) (w : World) : accepted f w (selectFile f w).
Proof. repeat split. Qed.

Lemma alert_rejected (msg : string) (w : World) : rejected w (perform [Alert msg] w).
Proof. repeat split. exists msg. reflexivity. Qed.

(** Turning a file down calls no transcription client and sends nothing. *)
Lemma rejected_calls_nothing (w w' : World) :
  rejected w w' ->
  invocations (effects w') = invocations (effects w) /\
  networkCalls (effects w') = networkCalls (effects w).
Proof.
  intros (_ & _ & msg & ->).
  induction (effects w) as [| e es IH]; [split; reflexivity |].
  destruct IH as [IHi IHn].
  destruct e; cbn [List.app invocations networkCalls]; rewrite ?IHi, ?IHn;
    split; reflexivity.
Qed.

(** A handler cannot have both taken a file and turned it down. *)
Lemma accepted_not_rejected (f : File) (w w' : World) :
  accepted f w w' -> rejected w w' -> False.
Proof.
  intros (_ & _ & _ & Heff & _) (_ & _ & msg & Hmsg).
  rewrite Heff in Hmsg. apply (f_equal (@List.length Effect)) in Hmsg.
  rewrite length_app in Hmsg. cbn [List.length] in Hmsg. lia.
Qed.

(** C3.  A file of exactly 15 x 1024 x 1024 bytes is taken, a file one byte
    larger is turned down with a message, without a call of the
    transcription client and with the file, the segments and the processing
    state unchanged.  A dropped file is moreover taken only when its media
    type begins with [audio/] or [video/]; the picker does not look at the
    type. *)
Theorem size_limit (w : World) (nm ty : string) :
  let exact := {| name := nm; size := 15 * 1024 * 1024; type := ty |} in
  let over := {| name := nm; size := 15 * 1024 * 1024 + 1; type := ty |} in
  accepted exact w (handleFileChange (Some exact) w) /\
  rejected w (handleFileChange (Some over) w) /\
  (if startsWith "audio/" ty || startsWith "video/" ty
   then accepted exact w (handleDrop (Some exact) w)
   else rejected w (handleDrop (Some exact) w)) /\
  rejected w (handleDrop (Some over) w).
Proof.
  cbv zeta. unfold handleFileChange, handleDrop. cbn [size type].
  change (15 * 1024 * 1024 >? MAX_FILE_SIZE) with false.
  change (15 * 1024 * 1024 + 1 >? MAX_FILE_SIZE) with true.
  repeat split;
    try destruct (startsWith "audio/" ty || startsWith "video/" ty);
    try apply selectFile_accepted; try apply alert_rejected;
    repeat split; try (eexists; reflexivity).
Qed.

(** The same for every size: the picker takes a file exactly when it is not
    larger than [MAX_FILE_SIZE], the drop area when its type is a media type
    as well. *)
Lemma handleFileChange_size (f : File) (w : World) :
  if size f <=? MAX_FILE_SIZE
  then accepted f w (handleFileChange (Some f) w)
  else rejected w (handleFileChange (Some f) w).
Proof.
  unfold handleFileChange. rewrite Z.gtb_ltb.
  destruct (Z.leb_spec (size f) MAX_FILE_SIZE) as [Hle | Hgt].
  - replace (MAX_FILE_SIZE <? size f) with false by (symmetry; apply Z.ltb_ge; lia).
    apply selectFile_accepted.
  - replace (MAX_FILE_SIZE <? size f) with true by (symmetry; apply Z.ltb_lt; lia).
    apply alert_rejected.
Qed.

(** X18.  The drop area takes a file exactly when its type begins with
    [audio/] or [video/] and its size is at most [MAX_FILE_SIZE]; any other
    file is turned down with a message and changes nothing. *)
Lemma handleDrop_size_and_type (f : File) (w : World) :
  if (startsWith "audio/" (type f) || startsWith "video/" (type f))
     && (size f <=? MAX_FILE_SIZE)
  then accepted f w (handleDrop (Some f) w)
  else rejected w (handleDrop (Some f) w).
Proof.
  unfold handleDrop. rewrite Z.gtb_ltb.
  destruct (startsWith "audio/" (type f) || startsWith "video/" (type f));
    cbn [andb]; [| apply alert_rejected].
  destruct (Z.leb_spec (size f) MAX_FILE_SIZE) as [Hle | Hgt].
  - replace (MAX_FILE_SIZE <? size f) with false by (symmetry; apply Z.ltb_ge; lia).
    apply selectFile_accepted.
  - replace (MAX_FILE_SIZE <? size f) with true by (symmetry; apply Z.ltb_lt; lia).
    apply alert_rejected.
Qed.

(** ** Transcription Client *)

(** C5.  With an empty API key [transcribeAudio] fails with the
    configuration error, whatever the payload and the media type, and does
    nothing before that: no client is built and no request is sent. *)
Theorem transcribeAudio_empty_key
    (JSON_parse : string -> string + JSValue)
    (base64Audio : option string) (mimeType : string)
    (respond : Request -> ServiceOutcome) :
  let (done, settled) :=
    transcribeAudio JSON_parse base64Audio mimeType EmptyString respond in
  (exists e, settled = inl e /\ ConfigurationError e) /\
  done = [] /\ networkCalls done = [] /\ clientsBuilt done = [].
Proof.
  cbn. split; [| repeat split].
  exists (Error missingKeyMessage). split; reflexivity.
Qed.

Lemma transcribeAudio_with_key
    (JSON_parse : string -> string + JSValue)
    (base64Audio : option string) (mimeType apiKey : string)
    (respond : Request -> ServiceOutcome) :
  truthy (Some apiKey) = true ->
  exists request,
    transcribeAudio_request base64Audio mimeType apiKey = inr request /\
    req_mimeType request = mimeType /\ req_data request = base64Audio /\
    transcribeAudio JSON_parse base64Audio mimeType apiKey respond =
      (([NewGoogleGenAI apiKey; GenerateContent request] ++
        transcribeAudio_catch (transcribeAudio_response JSON_parse (respond request)))%list,
       transcribeAudio_response JSON_parse (respond request)).
Proof.
  intro Hkey. unfold transcribeAudio, transcribeAudio_request. rewrite Hkey.
  cbn [negb]. eexists. repeat split.
Qed.

Lemma response_without_text (JSON_parse : string -> string + JSValue) (text : option string) :
  truthy text = false ->
  transcribeAudio_response JSON_parse (Fulfilled text) = inl (Error noResponseMessage).
Proof.
  intro Htext. unfold transcribeAudio_response. rewrite Htext. reflexivity.
Qed.

Lemma processAudio_catch_segments (e : Thrown) (w : World) :
  segments (app (processAudio_catch e w)) = segments (app w).
Proof. unfold processAudio_catch. destruct (thrown_message e); reflexivity. Qed.

(** C6.  When the text of the response is empty or absent,
    [transcribeAudio] fails with the service error; [processAudio] then
    leaves the segments as they were (empty, when they were empty), both when
    it runs without interruption and when the answer reaches a suspended
    call, and ends in status [error]. *)
Theorem empty_response_is_error
    (JSON_parse : string -> string + JSValue) (API_KEY : option string)
    (base64Audio : option string) (mimeType apiKey : string)
    (respond : Request -> ServiceOutcome) (text : option string)
    (read : ReaderOutcome) (w : World) :
  truthy (Some apiKey) = true ->
  truthy text = false ->
  (forall request, respond request = Fulfilled text) ->
  (exists e,
     snd (transcribeAudio JSON_parse base64Audio mimeType apiKey respond) = inl e /\
     ServiceError e) /\
  segments (app (processAudio JSON_parse API_KEY read respond w)) = segments (app w) /\
  (segments (app w) = [] ->
   segments (app (processAudio JSON_parse API_KEY read respond w)) = []) /\
  segments (app (processAudio_response JSON_parse (Fulfilled text) w)) = segments (app w) /\
  processingState (app (processAudio_response JSON_parse (Fulfilled text) w)) =
    {| status := error; message := Some noResponseMessage |}.
Proof.
  intros Hkey Htext Hrespond.
  assert (Hrun : segments (app (processAudio JSON_parse API_KEY read respond w))
                 = segments (app w)).
  { unfold processAudio.
    destruct (file (app w)) as [f |]; [| reflexivity].
    destruct (blobToBase64 read) as [e | base64];
      [rewrite processAudio_catch_segments; reflexivity |].
    unfold transcribeAudio.
    destruct (transcribeAudio_request base64 (mimeTypeOf f) (or_else API_KEY EmptyString))
      as [e | request]; [rewrite processAudio_catch_segments; reflexivity |].
    rewrite Hrespond, (response_without_text JSON_parse text Htext). reflexivity. }
  split; [| split; [| split; [| split]]].
  - destruct (transcribeAudio_with_key JSON_parse base64Audio mimeType apiKey respond Hkey)
      as (request & _ & _ & _ & Heq).
    rewrite Heq, Hrespond, (response_without_text JSON_parse text Htext).
    exists (Error noResponseMessage). split; [reflexivity | left; reflexivity].
  - exact Hrun.
  - intro Hempty. rewrite Hrun. exact Hempty.
  - unfold processAudio_response.
    rewrite (response_without_text JSON_parse text Htext). reflexivity.
  - unfold processAudio_response.
    rewrite (response_without_text JSON_parse text Htext). reflexivity.
Qed.

Lemma empty_response_is_error_witness :
  (exists e,
     snd (transcribeAudio sampleParse (Some "SGk=") "audio/mpeg" "key"
            (fun _ => Fulfilled None)) = inl e /\
     ServiceError e) /\
  segments (app (processAudio sampleParse sampleKey (LoadEnd (Some sampleDataUrl))
                   (fun _ => Fulfilled None) (selectFile song initialWorld))) = [] /\
  processingState (app (processAudio_response sampleParse (Fulfilled None)
                          (selectFile song initialWorld))) =
    {| status := error; message := Some noResponseMessage |}.
Proof.
  pose proof (empty_response_is_error sampleParse sampleKey (Some "SGk=") "audio/mpeg" "key"
                (fun _ => Fulfilled None) None (LoadEnd (Some sampleDataUrl))
                (selectFile song initialWorld)
                eq_refl eq_refl (fun _ => eq_refl)) as (Hfail & _ & Hempty & _ & Hstate).
  split; [exact Hfail | split; [exact (Hempty eq_refl) | exact Hstate]].
Defined.

Lemma map_from_length {A B : Type} (f : A -> Z -> B) (xs : list A) (start : Z) :
  List.length (map_from f start xs) = List.length xs.
Proof.
  revert start. induction xs as [| x xs IH]; intro start; cbn [map_from List.length].
  - reflexivity.
  - now rewrite IH.
Qed.

Lemma map_from_nth {A B : Type} (f : A -> Z -> B) (xs : list A) (start : Z) (i : nat) (x : A) :
  nth_error xs i = Some x ->
  nth_error (map_from f start xs) i = Some (f x (start + Z.of_nat i)).
Proof.
  revert start i. induction xs as [| y xs IH]; intros start i Hnth.
  - destruct i; discriminate.
  - destruct i as [| j]; cbn [map_from nth_error] in *.
    + injection Hnth as ->. now rewrite Z.add_0_r.
    + rewrite (IH (start + 1) j Hnth). do 2 f_equal. lia.
Qed.

Lemma toSegment_readable (item : JSValue) (index : Z) :
  nullish item = false -> toSegment item index = inr (segmentOf item index).
Proof.
  intro Hitem. destruct item; try discriminate; reflexivity.
Qed.

Lemma toSegment_nullish (item : JSValue) (index : Z) :
  nullish item = true -> exists msg, toSegment item index = inl (TypeError msg).
Proof.
  intro Hitem. destruct item; try discriminate; eexists; reflexivity.
Qed.

Lemma map_from_throwing_readable (elements : list JSValue) (start : Z) :
  (forall element, In element elements -> nullish element = false) ->
  map_from_throwing toSegment start elements = inr (map_from segmentOf start elements).
Proof.
  revert start. induction elements as [| x xs IH]; intros start Hall; cbn [map_from_throwing map_from].
  - reflexivity.
  - rewrite (toSegment_readable x start) by (apply Hall; left; reflexivity).
    rewrite IH by (intros element Hin; apply Hall; right; exact Hin).
    reflexivity.
Qed.

Lemma map_from_throwing_returns (elements : list JSValue) (start : Z)
    (result : list SegmentObject) :
  map_from_throwing toSegment start elements = inr result ->
  (forall element, In element elements -> nullish element = false) /\
  result = map_from segmentOf start elements.
Proof.
  revert start result. induction elements as [| x xs IH]; intros start result Hmap;
    cbn [map_from_throwing map_from] in *.
  - injection Hmap as <-. split; [intros element [] | reflexivity].
  - destruct (nullish x) eqn:Hx.
    + destruct (toSegment_nullish x start Hx) as (msg & Hthrow).
      rewrite Hthrow in Hmap. discriminate.
    + rewrite (toSegment_readable x start Hx) in Hmap.
      destruct (map_from_throwing toSegment (start + 1) xs) as [e | ys] eqn:Hrest;
        [discriminate |].
      injection Hmap as <-.
      destruct (IH (start + 1) ys Hrest) as (Hall & ->).
      split; [| reflexivity].
      intros element [<- | Hin]; [exact Hx | apply Hall, Hin].
Qed.

Lemma map_from_throwing_throws (elements : list JSValue) (start : Z) (e : Thrown) :
  map_from_throwing toSegment start elements = inl e -> exists msg, e = TypeError msg.
Proof.
  revert start. induction elements as [| x xs IH]; intros start Hmap;
    cbn [map_from_throwing] in Hmap; [discriminate |].
  destruct (nullish x) eqn:Hx.
  - destruct (toSegment_nullish x start Hx) as (msg & Hthrow).
    rewrite Hthrow in Hmap. injection Hmap as <-. exists msg. reflexivity.
  - rewrite (toSegment_readable x start Hx) in Hmap.
    destruct (map_from_throwing toSegment (start + 1) xs) as [e' | ys] eqn:Hrest;
      [| discriminate].
    injection Hmap as <-. apply (IH (start + 1)). exact Hrest.
Qed.

(** C7, as far as it holds: when the text of the response parses to an
    array none of whose elements is [null], [transcribeAudio] returns one
    segment for each element, in the order of the array: the segment at
    (0-based) place [i] has id [i + 1] and, as times and texts, the
    [startMs], [endMs], [original] and [translation] of the element at place
    [i] as they are, whatever [id] the element carries and whatever its
    times are. *)
Theorem transcribeAudio_maps_in_order
    (JSON_parse : string -> string + JSValue)
    (base64Audio : option string) (mimeType apiKey : string)
    (respond : Request -> ServiceOutcome) (text : string) (elements : list JSValue) :
  truthy (Some apiKey) = true ->
  (forall request, respond request = Fulfilled (Some text)) ->
  text <> EmptyString ->
  JSON_parse text = inr (JSArray elements) ->
  (forall element, In element elements -> nullish element = false) ->
  exists result,
    snd (transcribeAudio JSON_parse base64Audio mimeType apiKey respond) = inr result /\
    List.length result = List.length elements /\
    forall (i : nat) (item : JSValue),
      nth_error elements i = Some item ->
      nth_error result i =
        Some {| seg_id := Z.of_nat i + 1;
                seg_startMs := property "startMs" item;
                seg_endMs := property "endMs" item;
                seg_original := property "original" item;
                seg_translation := property "translation" item |}.
Proof.
  intros Hkey Hrespond Htext Hparse Hreadable.
  destruct (transcribeAudio_with_key JSON_parse base64Audio mimeType apiKey respond Hkey)
    as (request & _ & _ & _ & Heq).
  rewrite Heq, Hrespond. cbn [snd].
  exists (map_indexed segmentOf elements).
  split; [| split].
  - unfold transcribeAudio_response.
    destruct text as [| c text]; [contradiction |].
    cbn [truthy negb or_else]. rewrite Hparse.
    apply map_from_throwing_readable, Hreadable.
  - apply map_from_length.
  - intros i item Hnth. unfold map_indexed.
    rewrite (map_from_nth segmentOf elements 0 i item Hnth). reflexivity.
Qed.

Lemma transcribeAudio_maps_in_order_witness :
  exists result,
    snd (transcribeAudio sampleParse (Some "SGk=") "audio/mpeg" "key"
           (fun _ => Fulfilled (Some pairText))) = inr result /\
    List.length result = 2%nat /\
    forall (i : nat) (item : JSValue),
      nth_error [sampleItem; secondItem] i = Some item ->
      nth_error result i =
        Some {| seg_id := Z.of_nat i + 1;
                seg_startMs := property "startMs" item;
                seg_endMs := property "endMs" item;
                seg_original := property "original" item;
                seg_translation := property "translation" item |}.
Proof.
  apply (transcribeAudio_maps_in_order sampleParse (Some "SGk=") "audio/mpeg" "key"
           (fun _ => Fulfilled (Some pairText)) pairText [sampleItem; secondItem]).
  - reflexivity.
  - intro request. reflexivity.
  - discriminate.
  - reflexivity.
  - intros element [<- | [<- | []]]; reflexivity.
Defined.

(** C7 as stated fails on an array with a [null] element: the text [[null]]
    parses to an array of one element, and [transcribeAudio] returns no
    segment for it but fails, with the [TypeError] of reading [startMs]. *)
Lemma transcribeAudio_null_element :
  sampleParse "[null]" = inr (JSArray [JSNull]) /\
  snd (transcribeAudio sampleParse (Some "SGk=") "audio/mpeg" "key"
         (fun _ => Fulfilled (Some "[null]")))
  = inl (TypeError "Cannot read properties of null (reading 'startMs')").
Proof. split; reflexivity. Qed.

(** An array with a [null] (or [undefined]) element makes the call fail with
    a [TypeError], wherever the element stands. *)
Lemma transcribeAudio_null_fails
    (JSON_parse : string -> string + JSValue)
    (base64Audio : option string) (mimeType apiKey : string)
    (respond : Request -> ServiceOutcome) (text : string) (elements : list JSValue)
    (element : JSValue) :
  truthy (Some apiKey) = true ->
  (forall request, respond request = Fulfilled (Some text)) ->
  text <> EmptyString ->
  JSON_parse text = inr (JSArray elements) ->
  In element elements -> nullish element = true ->
  exists msg,
    snd (transcribeAudio JSON_parse base64Audio mimeType apiKey respond)
      = inl (TypeError msg).
Proof.
  intros Hkey Hrespond Htext Hparse Hin Hnull.
  destruct (transcribeAudio_with_key JSON_parse base64Audio mimeType apiKey respond Hkey)
    as (request & _ & _ & _ & Heq).
  rewrite Heq, Hrespond. cbn [snd]. unfold transcribeAudio_response.
  destruct text as [| c text]; [contradiction |].
  cbn [truthy negb or_else]. rewrite Hparse. unfold map_indexed_throwing.
  destruct (map_from_throwing toSegment 0 elements) as [e | result] eqn:Hmap.
  - apply map_from_throwing_throws in Hmap. destruct Hmap as (msg & ->).
    exists msg. reflexivity.
  - apply map_from_throwing_returns in Hmap. destruct Hmap as (Hall & _).
    rewrite (Hall element Hin) in Hnull. discriminate.
Qed.

(** The [id]s of the service are dropped and the order is kept: the sample
    elements say 7 and 1 and become segments 1 and 2, which have the types
    of the interface. *)
Lemma sample_ids_replaced :
  option_map asSubtitleSegments
    (match snd (transcribeAudio sampleParse (Some "SGk=") "audio/mpeg" "key"
                  (fun _ => Fulfilled (Some pairText))) with
     | inr result => Some result
     | inl _ => None
     end)
  = Some (Some twoSegments).
Proof. reflexivity. Qed.

(** An element that is not an object is mapped all the same, to a segment
    without times and texts. *)
Lemma sample_number_element :
  snd (transcribeAudio sampleParse (Some "SGk=") "audio/mpeg" "key"
         (fun _ => Fulfilled (Some "[5]")))
  = inr [ {| seg_id := 1; seg_startMs := JSUndefined; seg_endMs := JSUndefined;
             seg_original := JSUndefined; seg_translation := JSUndefined |} ].
Proof. reflexivity. Qed.

(** A parsed value that is no array: the call of [map] throws. *)
Lemma sample_not_an_array :
  snd (transcribeAudio sampleParse (Some "SGk=") "audio/mpeg" "key"
         (fun _ => Fulfilled (Some "null")))
  = inl (TypeError "Cannot read properties of null (reading 'map')") /\
  snd (transcribeAudio sampleParse (Some "SGk=") "audio/mpeg" "key"
         (fun _ => Fulfilled (Some "{}")))
  = inl (TypeError "parsed.map is not a function").
Proof. split; reflexivity. Qed.

(** ** Media type of the request *)

Lemma processAudio_catch_effects (e : Thrown) (w : World) :
  exists extra, effects (processAudio_catch e w) = (effects w ++ extra)%list.
Proof.
  unfold processAudio_catch. destruct (thrown_message e) as [e' | msg].
  - eexists. reflexivity.
  - exists []. cbn. now rewrite app_nil_r.
Qed.

(** C10.  [processAudio] calls the transcription client with the media type
    ['audio/mp3'] when the declared type of the file is the empty string, and
    with the declared type otherwise; when there is an API key, that is the
    media type of the request sent next. *)
Theorem processAudio_media_type
    (JSON_parse : string -> string + JSValue) (API_KEY : option string)
    (read : ReaderOutcome) (respond : Request -> ServiceOutcome)
    (w : World) (f : File) (base64 : option string) :
  file (app w) = Some f ->
  blobToBase64 read = inr base64 ->
  let mimeType := match type f with EmptyString => "audio/mp3" | declared => declared end in
  let apiKey := or_else API_KEY EmptyString in
  exists rest,
    effects (processAudio JSON_parse API_KEY read respond w) =
      (effects w ++ Invoke_transcribeAudio base64 mimeType apiKey :: rest)%list /\
    (truthy API_KEY = true ->
     exists request rest',
       rest = NewGoogleGenAI apiKey :: GenerateContent request :: rest' /\
       req_mimeType request = mimeType).
Proof.
  intros Hfile Hread. cbv zeta.
  assert (Hmime : mimeTypeOf f = match type f with EmptyString => "audio/mp3" | declared => declared end)
    by (unfold mimeTypeOf; destruct (type f); reflexivity).
  rewrite <- Hmime.
  unfold processAudio. rewrite Hfile, Hread.
  destruct (transcribeAudio JSON_parse base64 (mimeTypeOf f) (or_else API_KEY EmptyString) respond)
    as [done settled] eqn:Hcall.
  assert (Hrest : exists extra,
            effects
              (match settled with
               | inl e =>
                   processAudio_catch e
                     (perform done
                        (perform [Invoke_transcribeAudio base64 (mimeTypeOf f)
                                    (or_else API_KEY EmptyString)]
                           (setProcessingState
                              {| status := analyzing; message := Some listeningMessage |}
                              (setProcessingState
                                 {| status := uploading; message := Some preparingMessage |}
                                 w))))
               | inr result =>
                   setProcessingState {| status := completed; message := None |}
                     (setSegments result
                        (perform done
                           (perform [Invoke_transcribeAudio base64 (mimeTypeOf f)
                                       (or_else API_KEY EmptyString)]
                              (setProcessingState
                                 {| status := analyzing; message := Some listeningMessage |}
                                 (setProcessingState
                                    {| status := uploading;
                                       message := Some preparingMessage |} w)))))
               end) =
            (effects w ++ Invoke_transcribeAudio base64 (mimeTypeOf f)
                            (or_else API_KEY EmptyString) :: (done ++ extra))%list).
  { destruct settled as [e | result].
    - destruct (processAudio_catch_effects e
                  (perform done
                     (perform [Invoke_transcribeAudio base64 (mimeTypeOf f)
                                 (or_else API_KEY EmptyString)]
                        (setProcessingState
                           {| status := analyzing; message := Some listeningMessage |}
                           (setProcessingState
                              {| status := uploading; message := Some preparingMessage |}
                              w))))) as (extra & ->).
      exists extra. cbn. rewrite <- !app_assoc. reflexivity.
    - exists []. cbn. rewrite app_nil_r, <- app_assoc. reflexivity. }
  destruct Hrest as (extra & Hrest).
  exists (done ++ extra)%list. split; [exact Hrest |].
  intro Hkey.
  assert (Hkey' : truthy (Some (or_else API_KEY EmptyString)) = true).
  { unfold or_else. rewrite Hkey. destruct API_KEY as [k |]; [exact Hkey | discriminate]. }
  destruct (transcribeAudio_with_key JSON_parse base64 (mimeTypeOf f)
              (or_else API_KEY EmptyString) respond Hkey')
    as (request & _ & Hm & _ & Heq).
  rewrite Heq in Hcall. injection Hcall as Hdone _.
  exists request. eexists. split; [rewrite <- Hdone; reflexivity | exact Hm].
Qed.

Lemma processAudio_media_type_witness :
  exists rest,
    effects (processAudio sampleParse sampleKey (LoadEnd (Some sampleDataUrl))
               (fun _ => Fulfilled (Some sampleText)) (selectFile untyped initialWorld)) =
      (Invoke_transcribeAudio (Some "SGk=") "audio/mp3" "key" :: rest)%list /\
    (truthy sampleKey = true ->
     exists request rest',
       rest = NewGoogleGenAI "key" :: GenerateContent request :: rest' /\
       req_mimeType request = "audio/mp3").
Proof.
  apply (processAudio_media_type sampleParse sampleKey (LoadEnd (Some sampleDataUrl))
           (fun _ => Fulfilled (Some sampleText)) (selectFile untyped initialWorld)
           untyped (Some "SGk=")); reflexivity.
Defined.

(** ** Segments and processing state *)

(** C4, on a run with two analyses in flight: a file is dropped while the
    first analysis waits for the service, its analysis is started, the first
    answer arrives, and the reader of the second file ends.  The component
    then holds a segment while its status is [analyzing], so the invariant
    of the data model is broken in a reachable state. *)
Theorem overlapping_analyses_break_invariant :
  exists w,
    run sampleParse sampleKey overlappingRun initialWorld = Some w /\
    reachable sampleParse sampleKey w /\
    file (app w) = Some clip /\
    segments (app w) =
      [ {| seg_id := 1;
           seg_startMs := JSNum (Integral 0);
           seg_endMs := JSNum (Integral 1000);
           seg_original := JSString "Hi";
           seg_translation := JSString "嗨" |} ] /\
    asSubtitleSegments (segments (app w)) =
      Some [ {| id := 1; startMs := 0; endMs := 1000;
                original := "Hi"; translation := "嗨" |} ] /\
    status (processingState (app w)) = analyzing /\
    ~ segments_only_when_completed w.
Proof.
  destruct (run sampleParse sampleKey overlappingRun initialWorld) as [w |] eqn:Hrun;
    [| vm_compute in Hrun; discriminate].
  exists w.
  assert (Hw : file (app w) = Some clip /\
               segments (app w) =
                 [ {| seg_id := 1;
                      seg_startMs := JSNum (Integral 0);
                      seg_endMs := JSNum (Integral 1000);
                      seg_original := JSString "Hi";
                      seg_translation := JSString "嗨" |} ] /\
               status (processingState (app w)) = analyzing).
  { vm_compute in Hrun. injection Hrun as <-. repeat split. }
  destruct Hw as (Hfile & Hsegs & Hstatus).
  repeat split; try assumption.
  - exists overlappingRun. exact Hrun.
  - rewrite Hsegs. reflexivity.
  - unfold segments_only_when_completed. rewrite Hsegs, Hstatus.
    intro H. specialize (H ltac:(discriminate)). discriminate.
Qed.

(** Every file that a handler takes clears the segments and resets the
    status to [idle], whatever the state before. *)
Lemma selection_resets (f : File) (w : World) :
  segments (app (selectFile f w)) = [] /\
  processingState (app (selectFile f w)) = {| status := idle; message := None |} /\
  file (app (selectFile f w)) = Some f.
Proof. repeat split. Qed.

Section Exclusive.

Variable JSON_parse : string -> string + JSValue.
Variable API_KEY : option string.

Lemma exclusive_inv_initial : exclusive_inv initialWorld.
Proof.
  repeat split; cbn; try lia; try congruence.
  intro H. contradiction.
Qed.

Lemma no_segments_unless_completed (w : World) :
  segments_only_when_completed w ->
  status (processingState (app w)) <> completed ->
  segments (app w) = [].
Proof.
  unfold segments_only_when_completed. intros Hinv Hstatus.
  destruct (segments (app w)) as [| seg segs]; [reflexivity |].
  exfalso. apply Hstatus, Hinv. discriminate.
Qed.

Lemma exclusive_inv_selectFile (f : File) (w : World) :
  exclusive_inv w -> exclusive_inv (selectFile f w).
Proof.
  intros (Hlen & _ & _). repeat split; cbn; try assumption; try reflexivity.
  intro H. contradiction.
Qed.

Lemma exclusive_inv_perform (es : list Effect) (w : World) :
  exclusive_inv w -> exclusive_inv (perform es w).
Proof. intros (Hlen & Htasks & Hsegs). repeat split; assumption. Qed.

Lemma exclusive_inv_catch (e : Thrown) (w : World) :
  tasks w = [] -> segments (app w) = [] -> exclusive_inv (processAudio_catch e w).
Proof.
  intros Htasks Hsegs. unfold exclusive_inv, segments_only_when_completed, processAudio_catch.
  destruct (thrown_message e) as [e' | msg];
    cbn; rewrite Htasks, Hsegs; cbn; repeat split; try lia; congruence.
Qed.

Lemma single_task (w : World) (i : nat) (t : Task) :
  (List.length (tasks w) <= 1)%nat ->
  nth_error (tasks w) i = Some t ->
  tasks w = [t] /\ tasks (finish i w) = [].
Proof.
  intros Hlen Hnth. unfold finish. cbn [tasks].
  destruct (tasks w) as [| t0 [| t1 rest]]; cbn in *.
  - destruct i; discriminate.
  - destruct i as [| [| j]]; cbn in Hnth; try discriminate.
    injection Hnth as ->. split; reflexivity.
  - lia.
Qed.

Lemma exclusive_inv_step (ev : Event) (w w' : World) :
  exclusive_inv w ->
  step_exclusive JSON_parse API_KEY ev w = Some w' ->
  exclusive_inv w'.
Proof.
  intros Hinv Hstep. pose proof Hinv as (Hlen & Htasks & Hsegs).
  destruct ev as [files | files | | | | | | i read | i outcome];
    unfold step_exclusive in Hstep.
  - (* the picker *)
    destruct (tasks w); cbn [step] in Hstep; injection Hstep as <-;
      unfold handleFileChange; destruct files as [f |]; try assumption;
      destruct (size f >? MAX_FILE_SIZE);
      auto using exclusive_inv_selectFile, exclusive_inv_perform.
  - (* the drop area *)
    destruct (tasks w); cbn [step] in Hstep; injection Hstep as <-;
      unfold handleDrop; destruct files as [f |]; try assumption;
      destruct (startsWith "audio/" (type f) || startsWith "video/" (type f));
      try destruct (size f >? MAX_FILE_SIZE);
      auto using exclusive_inv_selectFile, exclusive_inv_perform.
  - (* start: nothing is in flight *)
    destruct (tasks w) as [| t ts] eqn:Hts; [| discriminate].
    cbn [step] in Hstep.
    destruct (file (app w)) as [f |] eqn:Hfile; [| discriminate].
    destruct (status (processingState (app w))) eqn:Hstatus; try discriminate.
    injection Hstep as <-. unfold processAudio_begin. rewrite Hfile.
    assert (Hnone : segments (app w) = [])
      by (apply no_segments_unless_completed; [assumption | congruence]).
    unfold exclusive_inv, segments_only_when_completed. cbn. rewrite Hts, Hnone.
    cbn. repeat split; try lia; congruence.
  - (* remove *)
    assert (Hstep' : step JSON_parse API_KEY ClickRemove w = Some w')
      by (destruct (tasks w); exact Hstep).
    cbn [step] in Hstep'. destruct (file (app w)); [| discriminate].
    injection Hstep' as <-.
    unfold exclusive_inv, segments_only_when_completed. cbn.
    repeat split; try assumption; try reflexivity. intro H. contradiction.
  - (* retry *)
    assert (Hstep' : step JSON_parse API_KEY ClickRetry w = Some w')
      by (destruct (tasks w); exact Hstep).
    cbn [step] in Hstep'.
    destruct (status (processingState (app w))) eqn:Hstatus; try discriminate.
    injection Hstep' as <-.
    assert (Hnone : segments (app w) = [])
      by (apply no_segments_unless_completed; [assumption | congruence]).
    unfold exclusive_inv, segments_only_when_completed. cbn. rewrite Hnone.
    repeat split; try assumption; try reflexivity. intro H. contradiction.
  - (* copy *)
    assert (Hstep' : step JSON_parse API_KEY ClickCopy w = Some w')
      by (destruct (tasks w); exact Hstep).
    cbn [step] in Hstep'. destruct (segments (app w)); [discriminate |].
    injection Hstep' as <-. apply exclusive_inv_perform, Hinv.
  - (* download *)
    assert (Hstep' : step JSON_parse API_KEY ClickDownload w = Some w')
      by (destruct (tasks w); exact Hstep).
    cbn [step] in Hstep'. destruct (segments (app w)); [discriminate |].
    injection Hstep' as <-. apply exclusive_inv_perform, Hinv.
  - (* the reader of the only call in flight ends *)
    assert (Hstep' : step JSON_parse API_KEY (ReaderDone i read) w = Some w')
      by (destruct (tasks w); exact Hstep).
    cbn [step] in Hstep'.
    destruct (nth_error (tasks w) i) as [[f | request] |] eqn:Hnth; try discriminate.
    injection Hstep' as <-.
    destruct (single_task w i _ Hlen Hnth) as (Hone & Hdone).
    assert (Hnone : segments (app (finish i w)) = [])
      by (apply Htasks; rewrite Hone; discriminate).
    unfold processAudio_read.
    destruct (blobToBase64 read) as [e | base64];
      [apply exclusive_inv_catch; assumption |].
    destruct (transcribeAudio_request base64 (mimeTypeOf f) (or_else API_KEY EmptyString))
      as [e | request].
    + apply exclusive_inv_catch; cbn; assumption.
    + unfold exclusive_inv, segments_only_when_completed. cbn in *.
      rewrite Hdone, Hnone. cbn. repeat split; try lia; congruence.
  - (* the service answers the only call in flight *)
    assert (Hstep' : step JSON_parse API_KEY (ServiceDone i outcome) w = Some w')
      by (destruct (tasks w); exact Hstep).
    cbn [step] in Hstep'.
    destruct (nth_error (tasks w) i) as [[f | request] |] eqn:Hnth; try discriminate.
    injection Hstep' as <-.
    destruct (single_task w i _ Hlen Hnth) as (Hone & Hdone).
    assert (Hnone : segments (app (finish i w)) = [])
      by (apply Htasks; rewrite Hone; discriminate).
    unfold processAudio_response.
    destruct (transcribeAudio_response JSON_parse outcome) as [e | result].
    + apply exclusive_inv_catch; cbn; assumption.
    + unfold exclusive_inv, segments_only_when_completed. cbn in *.
      rewrite Hdone. cbn. repeat split; try lia; congruence.
Qed.

(** X15.  As long as an analysis is started only when none is in flight,
    segments are there only in status [completed], in every state the
    component reaches. *)
Lemma exclusive_runs_keep_invariant (evs : list Event) (w w' : World) :
  exclusive_inv w ->
  run_exclusive JSON_parse API_KEY evs w = Some w' ->
  segments_only_when_completed w'.
Proof.
  revert w. induction evs as [| ev evs IH]; intros w Hinv Hrun; cbn [run_exclusive] in Hrun.
  - injection Hrun as <-. apply Hinv.
  - destruct (step_exclusive JSON_parse API_KEY ev w) as [w1 |] eqn:Hstep; [| discriminate].
    apply (IH w1); [| assumption].
    apply (exclusive_inv_step ev w w1); assumption.
Qed.

End Exclusive.

(** ** The two readings of [processAudio] agree *)

Ltac world_normal :=
  unfold processAudio_catch, perform, setProcessingState, setSegments, update,
    finish, spawn, transcribeAudio_catch;
  cbn [app effects tasks file audioUrl processingState segments remove_nth List.app].

(** From a state with a file, status [idle] and nothing in flight, the
    uninterrupted [processAudio] is the run of the start click, the end of
    the reader and, when a request was sent, the answer of the service. *)
Lemma processAudio_as_run
    (JSON_parse : string -> string + JSValue) (API_KEY : option string)
    (read : ReaderOutcome) (respond : Request -> ServiceOutcome)
    (w : World) (f : File) :
  tasks w = [] ->
  file (app w) = Some f ->
  status (processingState (app w)) = idle ->
  exists evs,
    run JSON_parse API_KEY evs w = Some (processAudio JSON_parse API_KEY read respond w) /\
    evs = match blobToBase64 read with
          | inl _ => [ClickStart; ReaderDone 0 read]
          | inr base64 =>
              match transcribeAudio_request base64 (mimeTypeOf f)
                      (or_else API_KEY EmptyString) with
              | inl _ => [ClickStart; ReaderDone 0 read]
              | inr request =>
                  [ClickStart; ReaderDone 0 read; ServiceDone 0 (respond request)]
              end
          end.
Proof.
  intros Htasks Hfile Hstatus.
  destruct w as [[fl url [st msg] segs] effs ts]. cbn in Htasks, Hfile, Hstatus. subst.
  eexists. split; [| reflexivity].
  unfold processAudio, transcribeAudio. cbn [app file].
  destruct (blobToBase64 read) as [e | base64] eqn:Hread.
  - cbn -[processAudio_read]. unfold processAudio_read. rewrite Hread. reflexivity.
  - destruct (transcribeAudio_request base64 (mimeTypeOf f) (or_else API_KEY EmptyString))
      as [e | request] eqn:Hreq.
    + cbn -[processAudio_read]. unfold processAudio_read. rewrite Hread, Hreq.
      world_normal. rewrite app_nil_r. reflexivity.
    + cbn [run step app file processingState status].
      unfold processAudio_begin. world_normal. cbn [nth_error].
      unfold processAudio_read. rewrite Hread, Hreq.
      world_normal. cbn [nth_error]. unfold processAudio_response.
      destruct (transcribeAudio_response JSON_parse (respond request)) as [e | result];
        world_normal; rewrite <- ?app_assoc; reflexivity.
Qed.

(** * Further properties of the code *)

(** ** [formatTime] on every valid time value *)

Lemma newDate_in_range (ms : Z) :
  - maxTimeValue <= ms <= maxTimeValue -> newDate ms = Some ms.
Proof.
  intro Hms. unfold newDate.
  destruct (Z.ltb_spec maxTimeValue (Z.abs ms)) as [Hout | _]; [lia | reflexivity].
Qed.

(** Before the epoch as well the fields are those of the floor
    decomposition. *)
Lemma formatTime_fields_in_range (ms : Z) :
  - maxTimeValue <= ms <= maxTimeValue ->
  formatTime ms =
    twoDigits ((ms / 3600000) mod 24) ++ ":" ++
    twoDigits ((ms / 60000) mod 60) ++ ":" ++
    twoDigits ((ms / 1000) mod 60) ++ "," ++
    threeDigits (ms mod 1000).
Proof.
  intro Hms. unfold formatTime. rewrite (newDate_in_range ms Hms).
  unfold getUTCHours, getUTCMinutes, getUTCSeconds, getUTCMilliseconds,
    msPerHour, msPerMinute, msPerSecond, option_map.
  pose proof (Z.mod_pos_bound (ms / 3600000) 24 eq_refl) as Hh.
  pose proof (Z.mod_pos_bound (ms / 60000) 60 eq_refl) as Hm.
  pose proof (Z.mod_pos_bound (ms / 1000) 60 eq_refl) as Hs.
  pose proof (Z.mod_pos_bound ms 1000 eq_refl) as Hl.
  rewrite !pad2_twoDigits by lia.
  rewrite pad3_threeDigits by lia.
  reflexivity.
Qed.

(** X1.  [formatTime] has period one day: two valid time values that are
    24 hours apart are written the same, also before the epoch. *)
Theorem formatTime_daily_period (ms : Z) :
  - maxTimeValue <= ms -> ms + 86400000 <= maxTimeValue ->
  formatTime (ms + 86400000) = formatTime ms.
Proof.
  intros Hlo Hhi. unfold maxTimeValue in *.
  rewrite (formatTime_fields_in_range (ms + 86400000)) by (unfold maxTimeValue; lia).
  rewrite (formatTime_fields_in_range ms) by (unfold maxTimeValue; lia).
  replace (ms + 86400000) with (ms + 24 * 3600000) at 1 by lia.
  replace (ms + 86400000) with (ms + 1440 * 60000) at 1 by lia.
  replace (ms + 86400000) with (ms + 86400 * 1000) by lia.
  rewrite !Z.div_add by lia.
  replace (ms / 3600000 + 24) with (ms / 3600000 + 1 * 24) by lia.
  replace (ms / 60000 + 1440) with (ms / 60000 + 24 * 60) by lia.
  replace (ms / 1000 + 86400) with (ms / 1000 + 1440 * 60) by lia.
  rewrite !Z.mod_add by lia.
  reflexivity.
Qed.

Lemma formatTime_daily_period_witness :
  formatTime (3661005 + 86400000) = formatTime 3661005.
Proof.
  apply (formatTime_daily_period 3661005); unfold maxTimeValue; lia.
Defined.

Lemma digit_injective (a b : Z) :
  0 <= a < 10 -> 0 <= b < 10 -> digit a = digit b -> a = b.
Proof.
  intros Ha Hb Heq.
  rewrite <- (digit_value a Ha), <- (digit_value b Hb), Heq. reflexivity.
Qed.

Lemma twoDigits_injective (a b : Z) :
  0 <= a < 100 -> 0 <= b < 100 -> twoDigits a = twoDigits b -> a = b.
Proof.
  intros Ha Hb Heq. unfold twoDigits in Heq.
  injection Heq as Hq Hr.
  apply digit_injective in Hq;
    [| split; [apply Z.div_pos; lia | apply Z.div_lt_upper_bound; lia] ..].
  apply digit_injective in Hr; [| apply Z.mod_pos_bound; lia ..].
  rewrite (Z.div_mod a 10), (Z.div_mod b 10) by lia. lia.
Qed.

Lemma threeDigits_injective (a b : Z) :
  0 <= a < 1000 -> 0 <= b < 1000 -> threeDigits a = threeDigits b -> a = b.
Proof.
  intros Ha Hb Heq. unfold threeDigits in Heq.
  remember (twoDigits (a mod 100)) as low_a eqn:Hlow_a.
  remember (twoDigits (b mod 100)) as low_b eqn:Hlow_b.
  injection Heq as Hq Hr. subst low_a low_b.
  apply digit_injective in Hq;
    [| split; [apply Z.div_pos; lia | apply Z.div_lt_upper_bound; lia] ..].
  apply twoDigits_injective in Hr; [| apply Z.mod_pos_bound; lia ..].
  rewrite (Z.div_mod a 100), (Z.div_mod b 100) by lia. lia.
Qed.

Lemma twoDigits_append_injective (a b : Z) (s t : string) :
  twoDigits a ++ s = twoDigits b ++ t -> twoDigits a = twoDigits b /\ s = t.
Proof.
  unfold twoDigits. cbn [append]. intro H. injection H as H1 H2 H3.
  rewrite H1, H2. split; [reflexivity | assumption].
Qed.

Lemma append_cancel (p s t : string) : p ++ s = p ++ t -> s = t.
Proof.
  induction p as [| c p IH]; cbn [append]; intro H; [exact H |].
  apply IH. congruence.
Qed.

(** The time of day, from its four fields. *)
Lemma time_of_day (ms : Z) :
  0 <= ms < 86400000 ->
  ms = ((ms / 3600000) mod 24) * 3600000 + ((ms / 60000) mod 60) * 60000
       + ((ms / 1000) mod 60) * 1000 + ms mod 1000.
Proof.
  intro Hms.
  assert (Hh : (ms / 3600000) mod 24 = ms / 3600000).
  { apply Z.mod_small. split; [apply Z.div_pos; lia | apply Z.div_lt_upper_bound; lia]. }
  rewrite Hh.
  pose proof (Z.div_mod ms 1000 ltac:(lia)) as H1.
  pose proof (Z.div_mod (ms / 1000) 60 ltac:(lia)) as H2.
  pose proof (Z.div_mod (ms / 60000) 60 ltac:(lia)) as H3.
  replace (ms / 1000 / 60) with (ms / 60000) in H2
    by (rewrite Z.div_div by lia; reflexivity).
  replace (ms / 60000 / 60) with (ms / 3600000) in H3
    by (rewrite Z.div_div by lia; reflexivity).
  lia.
Qed.

(** X2.  Within one day [formatTime] loses nothing: two offsets below 24
    hours that are written the same are the same offset. *)
Theorem formatTime_injective_within_day (a b : Z) :
  0 <= a < 86400000 -> 0 <= b < 86400000 ->
  formatTime a = formatTime b -> a = b.
Proof.
  intros Ha Hb Heq.
  rewrite (formatTime_fields a), (formatTime_fields b) in Heq
    by (unfold maxTimeValue; lia).
  apply twoDigits_append_injective in Heq. destruct Heq as [Hh Heq].
  apply append_cancel in Heq.
  apply twoDigits_append_injective in Heq. destruct Heq as [Hm Heq].
  apply append_cancel in Heq.
  apply twoDigits_append_injective in Heq. destruct Heq as [Hs Heq].
  apply append_cancel in Heq. rename Heq into Hl.
  pose proof (Z.mod_pos_bound (a / 3600000) 24 eq_refl).
  pose proof (Z.mod_pos_bound (b / 3600000) 24 eq_refl).
  pose proof (Z.mod_pos_bound (a / 60000) 60 eq_refl).
  pose proof (Z.mod_pos_bound (b / 60000) 60 eq_refl).
  pose proof (Z.mod_pos_bound (a / 1000) 60 eq_refl).
  pose proof (Z.mod_pos_bound (b / 1000) 60 eq_refl).
  pose proof (Z.mod_pos_bound a 1000 eq_refl).
  pose proof (Z.mod_pos_bound b 1000 eq_refl).
  apply twoDigits_injective in Hh; [| lia ..].
  apply twoDigits_injective in Hm; [| lia ..].
  apply twoDigits_injective in Hs; [| lia ..].
  apply threeDigits_injective in Hl; [| lia ..].
  rewrite (time_of_day a Ha), (time_of_day b Hb), Hh, Hm, Hs, Hl. reflexivity.
Qed.

Lemma formatTime_injective_within_day_witness : 59999 = 59 * 1000 + 999.
Proof.
  apply (formatTime_injective_within_day 59999 (59 * 1000 + 999));
    [lia | lia | reflexivity].
Defined.

(** ** [generateSRT] on every list of segments *)

Lemma map_from_app {A B : Type} (f : A -> Z -> B) (xs ys : list A) (start : Z) :
  map_from f start (xs ++ ys)%list =
  (map_from f start xs ++ map_from f (start + Z.of_nat (List.length xs)) ys)%list.
Proof.
  revert start. induction xs as [| x xs IH]; intro start; cbn [List.app map_from List.length].
  - now rewrite Z.add_0_r.
  - rewrite IH. do 3 f_equal. lia.
Qed.

Lemma join_snoc (sep : string) (xs : list string) (x : string) :
  xs <> [] -> join sep (xs ++ [x])%list = join sep xs ++ sep ++ x.
Proof.
  induction xs as [| y xs IH]; intro Hne; [contradiction |].
  destruct xs as [| z xs].
  - reflexivity.
  - change (join sep ((y :: z :: xs) ++ [x])%list)
      with (y ++ sep ++ join sep ((z :: xs) ++ [x])%list).
    rewrite IH by discriminate.
    change (join sep (y :: z :: xs)) with (y ++ sep ++ join sep (z :: xs)).
    now rewrite !append_assoc.
Qed.

(** X3.  One more segment at the end adds one block after a blank line,
    numbered with its place in the list, and leaves the text of the earlier
    blocks as it was. *)
Theorem generateSRT_snoc (segs : list SubtitleSegment) (seg : SubtitleSegment) :
  segs <> [] ->
  generateSRT (segs ++ [seg])%list =
    generateSRT segs ++ LF ++
    toString (Some (Z.of_nat (List.length segs) + 1)) ++ LF ++
    formatTime (startMs seg) ++ " --> " ++ formatTime (endMs seg) ++ LF ++
    original seg ++ LF ++ translation seg ++ LF.
Proof.
  intro Hne. unfold generateSRT, map_indexed.
  rewrite map_from_app. cbn [map_from].
  rewrite join_snoc.
  - reflexivity.
  - destruct segs; [contradiction | discriminate].
Qed.

Lemma generateSRT_snoc_witness :
  generateSRT (twoSegments ++ [mkSegment 9 2500 4000 "Yes" "是"])%list =
    generateSRT twoSegments ++ LF ++
    toString (Some 3) ++ LF ++
    formatTime 2500 ++ " --> " ++ formatTime 4000 ++ LF ++
    "Yes" ++ LF ++ "是" ++ LF.
Proof.
  apply (generateSRT_snoc twoSegments (mkSegment 9 2500 4000 "Yes" "是")).
  discriminate.
Defined.

(** X4.  Whatever the segments, a non-empty list is written as a text that
    ends with a newline. *)
Theorem generateSRT_ends_with_newline (segs : list SubtitleSegment) :
  segs <> [] -> exists body, generateSRT segs = body ++ LF.
Proof.
  intro Hne.
  destruct (exists_last Hne) as (front & seg & ->).
  destruct front as [| s front].
  - destruct (srtBlock_ends_with_newline seg 0) as (body & Hbody).
    exists body. exact Hbody.
  - unfold generateSRT, map_indexed. rewrite map_from_app.
    cbn [map_from List.app]. rewrite app_comm_cons, join_snoc by discriminate.
    destruct (srtBlock_ends_with_newline seg (0 + Z.of_nat (List.length (s :: front))))
      as (body & ->).
    eexists. rewrite <- !append_assoc. reflexivity.
Qed.

Lemma generateSRT_ends_with_newline_witness :
  exists body, generateSRT twoSegments = body ++ LF.
Proof.
  apply (generateSRT_ends_with_newline twoSegments). discriminate.
Defined.

Lemma map_from_ignores_ids (segs segs' : list SubtitleSegment) (start : Z) :
  map (fun seg => (startMs seg, endMs seg, original seg, translation seg)) segs =
  map (fun seg => (startMs seg, endMs seg, original seg, translation seg)) segs' ->
  map_from srtBlock start segs = map_from srtBlock start segs'.
Proof.
  revert segs' start. induction segs as [| a segs IH]; intros [| b segs'] start Heq;
    try discriminate; [reflexivity |].
  cbn [map] in Heq. injection Heq as Hs He Ho Ht Hrest.
  cbn [map_from]. rewrite (IH segs' (start + 1) Hrest).
  unfold srtBlock. rewrite Hs, He, Ho, Ht. reflexivity.
Qed.

(** X5.  The numbers of the blocks are places in the list: two lists of
    segments with the same times and texts, whatever their ids, are written
    the same. *)
Theorem generateSRT_ignores_ids (segs segs' : list SubtitleSegment) :
  map (fun seg => (startMs seg, endMs seg, original seg, translation seg)) segs =
  map (fun seg => (startMs seg, endMs seg, original seg, translation seg)) segs' ->
  generateSRT segs = generateSRT segs'.
Proof.
  intro Heq. unfold generateSRT, map_indexed.
  now rewrite (map_from_ignores_ids segs segs' 0 Heq).
Qed.

Lemma generateSRT_ignores_ids_witness :
  generateSRT [ mkSegment 40 0 1000 "Hi" "嗨"; mkSegment 7 1000 2500 "Bye" "再见" ]
  = generateSRT twoSegments.
Proof.
  apply (generateSRT_ignores_ids
           [ mkSegment 40 0 1000 "Hi" "嗨"; mkSegment 7 1000 2500 "Bye" "再见" ]
           twoSegments).
  reflexivity.
Defined.

(** ** [blobToBase64] *)

Lemma split_pieces_cut (sep : ascii) (stem rest : string) :
  occurs sep stem = false ->
  split_pieces sep (stem ++ String sep rest) = (stem, split sep rest).
Proof.
  induction stem as [| c stem IH]; cbn [occurs append split_pieces]; intro H.
  - unfold split. destruct (split_pieces sep rest). now rewrite Ascii.eqb_refl.
  - apply orb_false_iff in H. destruct H as [Hc Hs].
    rewrite (IH Hs), Hc. reflexivity.
Qed.

(** X6.  For a data URL made of a header without comma, a comma and a
    payload without comma (as base64 text is), [blobToBase64] resolves with
    exactly the payload. *)
Theorem blobToBase64_payload (header payload : string) :
  occurs "," header = false ->
  occurs "," payload = false ->
  blobToBase64 (LoadEnd (Some (header ++ "," ++ payload))) = inr (Some payload).
Proof.
  intros Hheader Hpayload. unfold blobToBase64, split.
  change ("," ++ payload) with (String "," payload).
  rewrite (split_pieces_cut "," header payload Hheader).
  unfold split. rewrite (split_pieces_no_sep "," payload Hpayload). reflexivity.
Qed.

Lemma blobToBase64_payload_witness :
  blobToBase64 (LoadEnd (Some ("data:audio/mpeg;base64" ++ "," ++ "SGk="))) =
  inr (Some "SGk=").
Proof.
  apply (blobToBase64_payload "data:audio/mpeg;base64" "SGk="); reflexivity.
Defined.

(** X7.  A result of the reader without any comma resolves with
    [undefined], not with an error. *)
Theorem blobToBase64_no_comma (dataUrl : string) :
  occurs "," dataUrl = false ->
  blobToBase64 (LoadEnd (Some dataUrl)) = inr None.
Proof.
  intro Hnone. unfold blobToBase64, split.
  rewrite (split_pieces_no_sep "," dataUrl Hnone). reflexivity.
Qed.

Lemma blobToBase64_no_comma_witness :
  blobToBase64 (LoadEnd (Some "data:")) = inr None.
Proof.
  apply (blobToBase64_no_comma "data:"). reflexivity.
Defined.

(** ** Name of the download *)

Lemma first_piece_has_no_sep (sep : ascii) (s : string) :
  occurs sep (fst (split_pieces sep s)) = false.
Proof.
  induction s as [| c s IH]; cbn [split_pieces]; [reflexivity |].
  destruct (split_pieces sep s) as [piece pieces]. cbn [fst] in IH.
  destruct (Ascii.eqb c sep) eqn:Hc; cbn [fst occurs]; [reflexivity |].
  now rewrite Hc, IH.
Qed.

(** X8.  Whatever file is selected, if any, the download is named
    [stem.srt] for a stem that is not empty and holds no dot. *)
Theorem downloadName_form (f : option File) :
  exists stem,
    downloadName f = stem ++ ".srt" /\ stem <> EmptyString /\ occurs "." stem = false.
Proof.
  unfold downloadName.
  destruct f as [f |].
  - unfold split. pose proof (first_piece_has_no_sep "." (name f)) as Hdot.
    destruct (split_pieces "." (name f)) as [piece pieces]. cbn [fst nth_error] in *.
    destruct piece as [| c piece].
    + exists "subtitle". repeat split; discriminate.
    + exists (String c piece). repeat split; [discriminate | exact Hdot].
  - exists "subtitle". repeat split; discriminate.
Qed.

Lemma downloadName_first_dot_witness :
  downloadName (Some {| name := "song" ++ "." ++ "final.mp3"; size := 1; type := "audio/mpeg" |})
  = "song" ++ ".srt".
Proof.
  apply (downloadName_first_dot "song" "final.mp3" 1 "audio/mpeg");
    [reflexivity | discriminate].
Defined.

(** ** [transcribeAudio] on every answer *)

(** X10.  [transcribeAudio] returns segments exactly when there is an API
    key, the service fulfils the request with a non-empty text, that text
    parses to an array, and no element of the array is [null] (or
    [undefined]); the segments are then the objects built from the elements
    in order.  In every other case it fails. *)
Theorem transcribeAudio_succeeds_iff
    (JSON_parse : string -> string + JSValue)
    (base64Audio : option string) (mimeType apiKey : string)
    (respond : Request -> ServiceOutcome) (result : list SegmentObject) :
  snd (transcribeAudio JSON_parse base64Audio mimeType apiKey respond) = inr result <->
  exists request text elements,
    apiKey <> EmptyString /\
    transcribeAudio_request base64Audio mimeType apiKey = inr request /\
    respond request = Fulfilled (Some text) /\
    text <> EmptyString /\
    JSON_parse text = inr (JSArray elements) /\
    (forall element, In element elements -> nullish element = false) /\
    result = map_indexed segmentOf elements.
Proof.
  unfold transcribeAudio. split.
  - destruct apiKey as [| c key]; [discriminate |].
    cbn [transcribeAudio_request truthy negb snd].
    set (request := mkRequest _ _ _ _ _ _ _).
    unfold transcribeAudio_response.
    destruct (respond request) as [[[| t text] |] | reason] eqn:Hrespond;
      try discriminate.
    cbn [truthy negb or_else].
    destruct (JSON_parse (String t text)) as [msg | parsed] eqn:Hparse;
      [discriminate |].
    destruct parsed as [| | b | n | str | elements | members]; try discriminate.
    intro Hmap. apply map_from_throwing_returns in Hmap. destruct Hmap as (Hall & ->).
    exists request, (String t text), elements.
    repeat split; try assumption; try discriminate.
  - intros (request & text & elements & Hkey & Hreq & Hrespond & Htext & Hparse & Hall & ->).
    rewrite Hreq. cbn [snd]. rewrite Hrespond. unfold transcribeAudio_response.
    destruct text as [| t text]; [contradiction |].
    cbn [truthy negb or_else]. rewrite Hparse.
    apply map_from_throwing_readable, Hall.
Qed.

(** X11.  With an API key [transcribeAudio] builds one client and sends one
    request, carrying the payload and the media type it was given, whatever
    the service answers: it never retries. *)
Theorem transcribeAudio_one_call
    (JSON_parse : string -> string + JSValue)
    (base64Audio : option string) (mimeType apiKey : string)
    (respond : Request -> ServiceOutcome) :
  apiKey <> EmptyString ->
  exists request,
    networkCalls (fst (transcribeAudio JSON_parse base64Audio mimeType apiKey respond))
      = [request] /\
    clientsBuilt (fst (transcribeAudio JSON_parse base64Audio mimeType apiKey respond))
      = [apiKey] /\
    req_data request = base64Audio /\
    req_mimeType request = mimeType /\
    req_model request = "gemini-3-flash-preview".
Proof.
  intro Hkey.
  assert (Htruthy : truthy (Some apiKey) = true)
    by (destruct apiKey; [contradiction | reflexivity]).
  destruct (transcribeAudio_with_key JSON_parse base64Audio mimeType apiKey respond Htruthy)
    as (request & Hreq & Hm & Hd & ->).
  exists request. cbn [fst].
  unfold transcribeAudio_request in Hreq. rewrite Htruthy in Hreq. cbn [negb] in Hreq.
  injection Hreq as <-.
  destruct (transcribeAudio_response JSON_parse _); repeat split.
Qed.

Lemma transcribeAudio_one_call_witness :
  exists request,
    networkCalls (fst (transcribeAudio sampleParse (Some "SGk=") "audio/mpeg" "key"
                         (fun _ => Rejected (ReasonValue (Some "503"))))) = [request] /\
    clientsBuilt (fst (transcribeAudio sampleParse (Some "SGk=") "audio/mpeg" "key"
                         (fun _ => Rejected (ReasonValue (Some "503"))))) = ["key"] /\
    req_data request = Some "SGk=" /\
    req_mimeType request = "audio/mpeg" /\
    req_model request = "gemini-3-flash-preview".
Proof.
  apply (transcribeAudio_one_call sampleParse (Some "SGk=") "audio/mpeg" "key"
           (fun _ => Rejected (ReasonValue (Some "503")))).
  discriminate.
Defined.

(** ** [processAudio] to its end *)

Lemma networkCalls_app (es es' : list Effect) :
  networkCalls (es ++ es')%list = (networkCalls es ++ networkCalls es')%list.
Proof.
  induction es as [| e es IH]; [reflexivity |].
  destruct e; cbn [List.app networkCalls]; now rewrite IH.
Qed.


(** X12.  Without an API key in the environment (absent or empty), a
    started analysis whose file was read ends in status [error] with the
    message of the missing key; nothing is sent to the service and the
    segments are what they were. *)
Theorem processAudio_missing_key
    (JSON_parse : string -> string + JSValue) (API_KEY : option string)
    (read : ReaderOutcome) (respond : Request -> ServiceOutcome)
    (w : World) (f : File) (base64 : option string) :
  file (app w) = Some f ->
  blobToBase64 read = inr base64 ->
  truthy API_KEY = false ->
  processingState (app (processAudio JSON_parse API_KEY read respond w)) =
    {| status := error; message := Some missingKeyMessage |} /\
  networkCalls (effects (processAudio JSON_parse API_KEY read respond w)) =
    networkCalls (effects w) /\
  segments (app (processAudio JSON_parse API_KEY read respond w)) = segments (app w) /\
  file (app (processAudio JSON_parse API_KEY read respond w)) = Some f.
Proof.
  intros Hfile Hread Hkey. unfold processAudio. rewrite Hfile, Hread.
  assert (Hempty : or_else API_KEY EmptyString = EmptyString)
    by (unfold or_else; rewrite Hkey; reflexivity).
  rewrite Hempty. cbn.
  rewrite !networkCalls_app. cbn. rewrite !app_nil_r.
  repeat split; assumption.
Qed.

Lemma processAudio_missing_key_witness :
  processingState (app (processAudio sampleParse (Some EmptyString)
                          (LoadEnd (Some sampleDataUrl))
                          (fun _ => Fulfilled (Some sampleText))
                          (selectFile song initialWorld))) =
    {| status := error; message := Some missingKeyMessage |} /\
  networkCalls (effects (processAudio sampleParse (Some EmptyString)
                           (LoadEnd (Some sampleDataUrl))
                           (fun _ => Fulfilled (Some sampleText))
                           (selectFile song initialWorld))) = [].
Proof.
  destruct (processAudio_missing_key sampleParse (Some EmptyString)
              (LoadEnd (Some sampleDataUrl)) (fun _ => Fulfilled (Some sampleText))
              (selectFile song initialWorld) song (Some "SGk=")
              eq_refl eq_refl eq_refl) as (Hstate & Hcalls & _).
  split; [exact Hstate | exact Hcalls].
Defined.

(** X13.  When the file cannot be read, a started analysis ends in status
    [error] without calling the transcription client or doing anything else
    outside the component: with the generic message after a reader error,
    with the conversion message when the reader has no string. *)
Theorem processAudio_unreadable_file
    (JSON_parse : string -> string + JSValue) (API_KEY : option string)
    (respond : Request -> ServiceOutcome) (w : World) (f : File) :
  file (app w) = Some f ->
  processingState (app (processAudio JSON_parse API_KEY ReadError respond w)) =
    {| status := error; message := Some unexpectedMessage |} /\
  processingState (app (processAudio JSON_parse API_KEY (LoadEnd None) respond w)) =
    {| status := error; message := Some notBase64Message |} /\
  effects (processAudio JSON_parse API_KEY ReadError respond w) = effects w /\
  effects (processAudio JSON_parse API_KEY (LoadEnd None) respond w) = effects w /\
  segments (app (processAudio JSON_parse API_KEY ReadError respond w)) = segments (app w) /\
  segments (app (processAudio JSON_parse API_KEY (LoadEnd None) respond w)) = segments (app w).
Proof.
  intro Hfile. unfold processAudio. rewrite Hfile. repeat split.
Qed.

Lemma processAudio_unreadable_file_witness :
  processingState (app (processAudio sampleParse sampleKey ReadError
                          (fun _ => Fulfilled (Some sampleText))
                          (selectFile song initialWorld))) =
    {| status := error; message := Some unexpectedMessage |} /\
  effects (processAudio sampleParse sampleKey ReadError
             (fun _ => Fulfilled (Some sampleText)) (selectFile song initialWorld)) = [].
Proof.
  destruct (processAudio_unreadable_file sampleParse sampleKey
              (fun _ => Fulfilled (Some sampleText)) (selectFile song initialWorld) song
              eq_refl) as (Hstate & _ & Heffects & _).
  split; [exact Hstate | exact Heffects].
Defined.






(** ** The transitions of the component *)

Lemma exclusive_runs_keep_invariant_witness :
  segments_only_when_completed
    (match run_exclusive sampleParse sampleKey
             [ DropFile (Some song); ClickStart;
               ReaderDone 0 (LoadEnd (Some sampleDataUrl));
               DropFile (Some clip);
               ServiceDone 0 (Fulfilled (Some sampleText)) ]
             initialWorld with
     | Some w => w
     | None => initialWorld
     end).
Proof.
  apply (exclusive_runs_keep_invariant sampleParse sampleKey
           [ DropFile (Some song); ClickStart;
             ReaderDone 0 (LoadEnd (Some sampleDataUrl));
             DropFile (Some clip);
             ServiceDone 0 (Fulfilled (Some sampleText)) ]
           initialWorld).
  - exact exclusive_inv_initial.
  - vm_compute. reflexivity.
Defined.

Lemma processAudio_catch_status (e : Thrown) (w : World) :
  status (processingState (app (processAudio_catch e w))) = error
  \/ processingState (app (processAudio_catch e w)) = processingState (app w).
Proof.
  unfold processAudio_catch. destruct (thrown_message e); [right | left]; reflexivity.
Qed.

Lemma handleFileChange_status (files : option File) (w : World) :
  status (processingState (app (handleFileChange files w))) = status (processingState (app w))
  \/ status (processingState (app (handleFileChange files w))) = idle.
Proof.
  unfold handleFileChange. destruct files as [f |]; [| left; reflexivity].
  destruct (size f >? MAX_FILE_SIZE); [left | right]; reflexivity.
Qed.

Lemma handleDrop_status (files : option File) (w : World) :
  status (processingState (app (handleDrop files w))) = status (processingState (app w))
  \/ status (processingState (app (handleDrop files w))) = idle.
Proof.
  unfold handleDrop. destruct files as [f |]; [| left; reflexivity].
  destruct (startsWith "audio/" (type f) || startsWith "video/" (type f));
    [| left; reflexivity].
  destruct (size f >? MAX_FILE_SIZE); [left | right]; reflexivity.
Qed.

(** X16.  What moves the status.  In one step the status becomes
    [uploading] only by the start button, from [idle] and with a file;
    [analyzing] only when a file reader ends; [completed] only when the
    service answers; [error] only when a reader ends or the service
    answers; [idle] only by a selection, the remove button or the retry
    button. *)
Theorem status_moves
    (JSON_parse : string -> string + JSValue) (API_KEY : option string)
    (ev : Event) (w w' : World) :
  step JSON_parse API_KEY ev w = Some w' ->
  status (processingState (app w')) <> status (processingState (app w)) ->
  match status (processingState (app w')) with
  | uploading =>
      ev = ClickStart /\ status (processingState (app w)) = idle /\ file (app w) <> None
  | analyzing => exists i read, ev = ReaderDone i read
  | completed => exists i outcome, ev = ServiceDone i outcome
  | error =>
      (exists i read, ev = ReaderDone i read) \/ (exists i outcome, ev = ServiceDone i outcome)
  | idle =>
      (exists files, ev = PickFile files) \/ (exists files, ev = DropFile files) \/
      ev = ClickRemove \/ ev = ClickRetry
  end.
Proof.
  intros Hstep Hmove.
  destruct ev as [files | files | | | | | | i read | i outcome]; cbn [step] in Hstep.
  - injection Hstep as <-.
    destruct (handleFileChange_status files w) as [Hsame | Hidle];
      [contradiction | rewrite Hidle; eauto].
  - injection Hstep as <-.
    destruct (handleDrop_status files w) as [Hsame | Hidle];
      [contradiction | rewrite Hidle; eauto].
  - destruct (file (app w)) as [f |] eqn:Hfile; [| discriminate].
    destruct (status (processingState (app w))) eqn:Hstatus; try discriminate.
    injection Hstep as <-. unfold processAudio_begin. rewrite Hfile. cbn.
    repeat split. discriminate.
  - destruct (file (app w)); [| discriminate]. injection Hstep as <-. cbn. auto.
  - destruct (status (processingState (app w))); try discriminate.
    injection Hstep as <-. cbn. auto.
  - destruct (segments (app w)); [discriminate |]. injection Hstep as <-.
    exfalso. apply Hmove. reflexivity.
  - destruct (segments (app w)); [discriminate |]. injection Hstep as <-.
    exfalso. apply Hmove. reflexivity.
  - destruct (nth_error (tasks w) i) as [[f | request] |]; try discriminate.
    injection Hstep as <-. unfold processAudio_read in *.
    destruct (blobToBase64 read) as [e | base64].
    + destruct (processAudio_catch_status e (finish i w)) as [Herror | Hsame].
      * rewrite Herror. eauto.
      * exfalso. apply Hmove. rewrite Hsame. reflexivity.
    + destruct (transcribeAudio_request base64 (mimeTypeOf f) (or_else API_KEY EmptyString))
        as [e | request]; [| cbn; eauto].
      match goal with |- context [processAudio_catch e ?W] =>
        destruct (processAudio_catch_status e W) as [Herror | Hsame]
      end.
      * rewrite Herror. eauto.
      * rewrite Hsame. cbn. eauto.
  - destruct (nth_error (tasks w) i) as [[f | request] |]; try discriminate.
    injection Hstep as <-. unfold processAudio_response in *.
    destruct (transcribeAudio_response JSON_parse outcome) as [e | result];
      [| cbn; eauto].
    match goal with |- context [processAudio_catch e ?W] =>
      destruct (processAudio_catch_status e W) as [Herror | Hsame]
    end.
    + rewrite Herror. eauto.
    + exfalso. apply Hmove. rewrite Hsame. reflexivity.
Qed.

Lemma status_moves_witness :
  ClickStart = ClickStart /\
  status (processingState (app (selectFile song initialWorld))) = idle /\
  file (app (selectFile song initialWorld)) <> None.
Proof.
  apply (status_moves sampleParse sampleKey ClickStart (selectFile song initialWorld)
           (processAudio_begin (selectFile song initialWorld))).
  - reflexivity.
  - discriminate.
Defined.

Lemma handleFileChange_segments (files : option File) (w : World) :
  segments (app (handleFileChange files w)) = segments (app w)
  \/ segments (app (handleFileChange files w)) = [].
Proof.
  unfold handleFileChange. destruct files as [f |]; [| left; reflexivity].
  destruct (size f >? MAX_FILE_SIZE); [left | right]; reflexivity.
Qed.

Lemma handleDrop_segments (files : option File) (w : World) :
  segments (app (handleDrop files w)) = segments (app w)
  \/ segments (app (handleDrop files w)) = [].
Proof.
  unfold handleDrop. destruct files as [f |]; [| left; reflexivity].
  destruct (startsWith "audio/" (type f) || startsWith "video/" (type f));
    [| left; reflexivity].
  destruct (size f >? MAX_FILE_SIZE); [left | right]; reflexivity.
Qed.

(** X17.  Results are all or nothing.  A step that changes the segments
    either clears them, or is an answer of the service that
    [transcribeAudio] turns into segments: then the whole result is stored
    and the status becomes [completed] in the same step. *)
Theorem segments_all_or_nothing
    (JSON_parse : string -> string + JSValue) (API_KEY : option string)
    (ev : Event) (w w' : World) :
  step JSON_parse API_KEY ev w = Some w' ->
  segments (app w') <> segments (app w) ->
  segments (app w') = [] \/
  exists i outcome,
    ev = ServiceDone i outcome /\
    transcribeAudio_response JSON_parse outcome = inr (segments (app w')) /\
    processingState (app w') = {| status := completed; message := None |}.
Proof.
  intros Hstep Hmove.
  destruct ev as [files | files | | | | | | i read | i outcome]; cbn [step] in Hstep.
  - injection Hstep as <-.
    destruct (handleFileChange_segments files w); [contradiction | left; assumption].
  - injection Hstep as <-.
    destruct (handleDrop_segments files w); [contradiction | left; assumption].
  - destruct (file (app w)) as [f |] eqn:Hfile; [| discriminate].
    destruct (status (processingState (app w))); try discriminate.
    injection Hstep as <-. exfalso. apply Hmove.
    unfold processAudio_begin. rewrite Hfile. reflexivity.
  - destruct (file (app w)); [| discriminate]. injection Hstep as <-. left. reflexivity.
  - destruct (status (processingState (app w))); try discriminate.
    injection Hstep as <-. exfalso. apply Hmove. reflexivity.
  - destruct (segments (app w)) eqn:Hsegs; [discriminate |]. injection Hstep as <-.
    exfalso. apply Hmove. exact Hsegs.
  - destruct (segments (app w)) eqn:Hsegs; [discriminate |]. injection Hstep as <-.
    exfalso. apply Hmove. exact Hsegs.
  - destruct (nth_error (tasks w) i) as [[f | request] |]; try discriminate.
    injection Hstep as <-. exfalso. apply Hmove. unfold processAudio_read.
    destruct (blobToBase64 read) as [e | base64];
      [rewrite processAudio_catch_segments; reflexivity |].
    destruct (transcribeAudio_request base64 (mimeTypeOf f) (or_else API_KEY EmptyString));
      [rewrite processAudio_catch_segments |]; reflexivity.
  - destruct (nth_error (tasks w) i) as [[f | request] |]; try discriminate.
    injection Hstep as <-. unfold processAudio_response in *.
    destruct (transcribeAudio_response JSON_parse outcome) as [e | result] eqn:Hresult.
    + exfalso. apply Hmove. rewrite processAudio_catch_segments. reflexivity.
    + right. exists i, outcome.
      split; [reflexivity | split; [rewrite Hresult |]; reflexivity].
Qed.

Lemma segments_all_or_nothing_witness :
  segments (app (processAudio_response sampleParse (Fulfilled (Some sampleText))
                   (selectFile song initialWorld))) = []
  \/
  exists i outcome,
    ServiceDone 0 (Fulfilled (Some sampleText)) = ServiceDone i outcome /\
    transcribeAudio_response sampleParse outcome =
      inr (segments (app (processAudio_response sampleParse (Fulfilled (Some sampleText))
                            (selectFile song initialWorld)))) /\
    processingState (app (processAudio_response sampleParse (Fulfilled (Some sampleText))
                            (selectFile song initialWorld))) =
      {| status := completed; message := None |}.
Proof.
  apply (segments_all_or_nothing sampleParse sampleKey
           (ServiceDone 0 (Fulfilled (Some sampleText)))
           (spawn (AwaitingResponse
                     (mkRequest MODEL_NAME "audio/mpeg" (Some "SGk=")
                        "Generate subtitles for this audio." systemInstruction
                        "application/json" responseSchema))
              (selectFile song initialWorld))).
  - reflexivity.
  - discriminate.
Defined.
